(** * Solid-mechanics Lagrangian FEM kernels (GEOSX mini-app)

    A shallow embedding of [SolidMechanicsLagrangianFEMKernels]: the monolithic
    kernels [ObjectOfArraysKernel] and [ArrayOfObjectsKernel], and the split
    kernels [ArrayOfObjects_KinematicKernel], [ConstitutiveUpdateKernel] and
    [ArrayOfObjects_IntegrationKernel].

    The kernels compute in [real64].  The embedding is written once over an
    interface [Real64] of the arithmetic the kernels use, and is read at two
    instances: the real numbers (exact arithmetic, for the algebraic laws) and
    IEEE binary64 (the primitive floats, on which the kernels can be run).

    Arrays reached through the layout accessors ([idevStressData(k,q,i)],
    [idNdX_x(k,q,a)], ...) are functions of their indices; the storage order
    selected in [Layout.hpp] is not part of the model.  The parallel
    [forall_in_set] is the sequential loop over the element list.  The
    element-to-node map is the explicit one (the build without
    [STRUCTURED_GRID]); the [_Shape] kernels, which differ only in computing
    the shape-function derivatives on the fly, are not embedded. *)

From Stdlib Require Import List Arith Bool Lia ZArith Permutation.
From Stdlib Require Import Reals Lra.
From Stdlib Require Import Floats.
Import ListNotations.

Set Implicit Arguments.

(** ** The arithmetic of [real64] *)

Class Real64 (T : Type) : Type := {
  r_zero : T;            (* 0.0 *)
  r_one : T;             (* 1.0 *)
  r_half : T;            (* 0.5 *)
  r_two : T;             (* 2.0 *)
  r_three : T;           (* 3.0 *)
  r_add : T -> T -> T;
  r_sub : T -> T -> T;
  r_mul : T -> T -> T;
  r_div : T -> T -> T
}.

Declare Scope r64_scope.
Delimit Scope r64_scope with r64.
Infix "+" := r_add : r64_scope.
Infix "-" := r_sub : r64_scope.
Infix "*" := r_mul : r64_scope.
Infix "/" := r_div : r64_scope.

(** Exact arithmetic. *)
#[export] Instance Real64_R : Real64 R := {|
  r_zero := 0%R; r_one := 1%R; r_half := (1 / 2)%R; r_two := 2%R; r_three := 3%R;
  r_add := Rplus; r_sub := Rminus; r_mul := Rmult; r_div := Rdiv
|}.

(** IEEE 754 binary64. *)
#[export] Instance Real64_float : Real64 float := {|
  r_zero := 0%float; r_one := 1%float; r_half := 0.5%float;
  r_two := 2%float; r_three := 3%float;
  r_add := PrimFloat.add; r_sub := PrimFloat.sub;
  r_mul := PrimFloat.mul; r_div := PrimFloat.div
|}.

(** Array store [a(i) = v]. *)
Definition upd {A : Type} (f : nat -> A) (i : nat) (v : A) : nat -> A :=
  fun j => if j =? i then v else f j.

(** Selection of the x, y or z member of an object-of-arrays triple. *)
Definition comp3 {A : Type} (x y z : A) (i : nat) : A :=
  match i with 0 => x | 1 => y | _ => z end.

Definition LOCAL_DIM : nat := 3.

Section MatrixMath.

Context {T : Type} {RT : Real64 T}.
Local Open Scope r64_scope.

(** [real64 A[LOCAL_DIM][LOCAL_DIM]] *)
Record mat3 : Type := Mat3 {
  m00 : T; m01 : T; m02 : T;
  m10 : T; m11 : T; m12 : T;
  m20 : T; m21 : T; m22 : T
}.

(** [A[i][j]]; the kernels index with [i, j < LOCAL_DIM] only. *)
Definition mget (A : mat3) (i j : nat) : T :=
  match i, j with
  | 0, 0 => m00 A | 0, 1 => m01 A | 0, _ => m02 A
  | 1, 0 => m10 A | 1, 1 => m11 A | 1, _ => m12 A
  | _, 0 => m20 A | _, 1 => m21 A | _, _ => m22 A
  end.

(** The double loop [for i<LOCAL_DIM, for j<LOCAL_DIM: A[i][j] = f i j]. *)
Definition mbuild (f : nat -> nat -> T) : mat3 :=
  Mat3 (f 0 0) (f 0 1) (f 0 2)
       (f 1 0) (f 1 1) (f 1 2)
       (f 2 0) (f 2 1) (f 2 2).

(** [real64 A[LOCAL_DIM][LOCAL_DIM] = {{0.0}}] *)
Definition mzero : mat3 := mbuild (fun _ _ => r_zero).

Definition midentity : mat3 :=
  mbuild (fun i j => if i =? j then r_one else r_zero).

(** [for tx<LOCAL_DIM: A[tx][tx] += v] *)
Definition add_to_diagonal (A : mat3) (v : T) : mat3 :=
  mbuild (fun i j => if i =? j then mget A i j + v else mget A i j).

(** Modelled from the spec: [AijBjk] of MatrixMath_impl.hpp, which is not in
    the sources at hand.  It is the matrix product the kernels use for
    [L = dvdX . Finv] and, in [ConstitutiveUpdateKernel], for the first half of
    the rotation [Q.S.Qt]: [C[i][k] = sum_j A[i][j] * B[j][k]]. *)
Definition AijBjk (A B : mat3) : mat3 :=
  mbuild (fun i k =>
    mget A i 0 * mget B 0 k + mget A i 1 * mget B 1 k + mget A i 2 * mget B 2 k).

(** Modelled from the spec: [AijBkj] of MatrixMath_impl.hpp (not in the
    sources at hand), the product with the transposed second factor that
    completes [Q.S.Qt]: [C[i][k] = sum_j A[i][j] * B[k][j]]. *)
Definition AijBkj (A B : mat3) : mat3 :=
  mbuild (fun i k =>
    mget A i 0 * mget B k 0 + mget A i 1 * mget B k 1 + mget A i 2 * mget B k 2).

(** Modelled from the spec: [det] of MatrixMath_impl.hpp (not in the sources
    at hand), the determinant of a 3x3 matrix, expanded along the first row. *)
Definition det (F : mat3) : T :=
  m00 F * (m11 F * m22 F - m12 F * m21 F)
  - m01 F * (m10 F * m22 F - m12 F * m20 F)
  + m02 F * (m10 F * m21 F - m11 F * m20 F).

(** Modelled from the spec: [Finverse] of MatrixMath_impl.hpp (not in the
    sources at hand), the inverse of a 3x3 matrix: the adjugate divided by the
    determinant.  Nothing guards the division. *)
Definition Finverse (F : mat3) : mat3 :=
  let d := det F in
  Mat3 ((m11 F * m22 F - m12 F * m21 F) / d)
       ((m02 F * m21 F - m01 F * m22 F) / d)
       ((m01 F * m12 F - m02 F * m11 F) / d)
       ((m12 F * m20 F - m10 F * m22 F) / d)
       ((m00 F * m22 F - m02 F * m20 F) / d)
       ((m02 F * m10 F - m00 F * m12 F) / d)
       ((m10 F * m21 F - m11 F * m20 F) / d)
       ((m01 F * m20 F - m00 F * m21 F) / d)
       ((m00 F * m11 F - m01 F * m10 F) / d).

(** Modelled from the spec: [HughesWinget] of MatrixMath_impl.hpp (not in the
    sources at hand).  The velocity gradient [L] is split into its symmetric
    part [D] and its skew part [W]; the rate of deformation over the step is
    [Dadt = D*dt]; the incremental rotation is the Hughes-Winget mid-point
    formula [Rot = (I - W*dt/2)^-1 . (I + W*dt/2)].  The pair returned is
    [(Rot, Dadt)], the two output arguments in the order of the call. *)
Definition HughesWinget (L : mat3) (dt : T) : mat3 * mat3 :=
  let Omega := mbuild (fun ty tx => r_half * (mget L ty tx - mget L tx ty)) in
  let Dadt := mbuild (fun ty tx => r_half * (mget L ty tx + mget L tx ty) * dt) in
  let IpR := add_to_diagonal (mbuild (fun ty tx => r_half * dt * mget Omega ty tx)) r_one in
  let ImR := add_to_diagonal (mbuild (fun ty tx => r_zero - r_half * dt * mget Omega ty tx)) r_one in
  let ImRinv := Finverse ImR in
  (AijBjk ImRinv IpR, Dadt).

End MatrixMath.

Arguments mat3 T : clear implicits.

(** ** Per-point kinematics

    The block every kernel repeats verbatim for one quadrature point, between
    the two [CalculateGradient] calls and the constitutive update
    ([ObjectOfArraysKernel], [ArrayOfObjectsKernel],
    [ArrayOfObjects_KinematicKernel], [ObjectOfArrays_KinematicKernel]). *)

Section Kinematics.

Context {T : Type} {RT : Real64 T}.
Local Open Scope r64_scope.

(** [dvdX[ty][tx] = dUhatdX[ty][tx]*(1.0/dt)] *)
Definition scaled_increment (dUhatdX : mat3 T) (dt : T) : mat3 T :=
  mbuild (fun ty tx => mget dUhatdX ty tx * (r_one / dt)).

(** The four loops under the comment "calculate du/dX":
    [F = dUhatdX; F *= 0.5; F += dUdX; F[tx][tx] += 1.0]. *)
Definition midpoint_gradient (dUdX dUhatdX : mat3 T) : mat3 T :=
  let F := mbuild (fun row col => mget dUhatdX row col) in
  let F := mbuild (fun row col => mget F row col * r_half) in
  let F := mbuild (fun row col => mget F row col + mget dUdX row col) in
  add_to_diagonal F r_one.

(** The block that leaves the velocity gradient in [L]:
    [Finverse(F, Finv); AijBjk(dvdX,Finv,L)]. *)
Definition velocity_gradient (dUdX dUhatdX : mat3 T) (dt : T) : mat3 T :=
  let dvdX := scaled_increment dUhatdX dt in
  let F := midpoint_gradient dUdX dUhatdX in
  let Finv := Finverse F in
  AijBjk dvdX Finv.

(** "Calculate gradient (end of step)":
    [F[ty][tx] = dUhatdX[ty][tx] + dUdX[ty][tx]; F[tx][tx] += 1.0]. *)
Definition end_of_step_gradient (dUdX dUhatdX : mat3 T) : mat3 T :=
  let F := mbuild (fun ty tx => mget dUhatdX ty tx + mget dUdX ty tx) in
  add_to_diagonal F r_one.

(** The locals alive after [HughesWinget(Rot, Dadt, L, dt)]. *)
Record kinematics : Type := Kin {
  kin_L : mat3 T;
  kin_detF : T;
  kin_Finv : mat3 T;
  kin_Rot : mat3 T;
  kin_Dadt : mat3 T
}.

Definition point_kinematics (dUdX dUhatdX : mat3 T) (dt : T) : kinematics :=
  let L := velocity_gradient dUdX dUhatdX dt in
  let F := end_of_step_gradient dUdX dUhatdX in
  let detF := det F in
  let Finv := Finverse F in
  let RD := HughesWinget L dt in
  Kin L detF Finv (fst RD) (snd RD).

End Kinematics.

Arguments kinematics T : clear implicits.

(** ** Quadrature-point material state *)

Section MaterialState.

Context {T : Type} {RT : Real64 T}.
Local Open Scope r64_scope.

(** [idevStressData(k,q,i)] with [i < 6], and [imeanStress[m]]. *)
Record stress_state : Type := Stress {
  devStressData : nat -> nat -> nat -> T;
  meanStress : nat -> T
}.

(** The symmetric tensor read from six stored components:
    [A[0][0] = v(0); A[1][0] = v(1); A[1][1] = v(2); A[2][0] = v(3);
     A[2][1] = v(4); A[2][2] = v(5)], then
    [A[0][1] = A[1][0]; A[0][2] = A[2][0]; A[1][2] = A[2][1]]. *)
Definition sym_tensor (v : nat -> T) : mat3 T :=
  Mat3 (v 0) (v 1) (v 3)
       (v 1) (v 2) (v 4)
       (v 3) (v 4) (v 5).

(** The entry of [A] that is stored as component [c]:
    [A[0][0], A[1][0], A[1][1], A[2][0], A[2][1], A[2][2]]. *)
Definition lower6 (A : mat3 T) (c : nat) : T :=
  match c with
  | 0 => m00 A | 1 => m10 A | 2 => m11 A
  | 3 => m20 A | 4 => m21 A | _ => m22 A
  end.

(** The six stores [dev(k,q,c) = v c], [c = 0..5]. *)
Definition store6 (dev : nat -> nat -> nat -> T) (k q : nat) (v : nat -> T)
  : nat -> nat -> nat -> T :=
  fun k' q' c =>
    if (k' =? k) && (q' =? q) && (c <? 6) then v c else dev k' q' c.

(** The assembly of [TotalStress] in the kernels: the six deviatoric
    components of point [(k,q)], mirrored, then
    [for i<LOCAL_DIM: TotalStress[i][i] += imeanStress[m]]. *)
Definition TotalStress (s : stress_state) (k q m : nat) : mat3 T :=
  let TS := sym_tensor (devStressData s k q) in
  add_to_diagonal TS (meanStress s m).

(** Modelled from the spec: [UpdateStatePoint] of ConstitutiveUpdate_impl.hpp
    (not in the sources at hand), the linear-elastic update the drivers hand
    to the monolithic kernels as [updateState_ptr].  Per the comment on
    [ConstitutiveUpdateKernel] ("this would normally be a function pointer in
    a monolithic kernel") it is that kernel's per-point body, on the local
    [Dadt] and [Rot] instead of the intermediate storage. *)
Definition UpdateStatePoint (Dadt Rot : mat3 T) (m q k : nat)
    (s : stress_state) (shearModulus bulkModulus : T) : stress_state :=
  let volumeStrain := mget Dadt 0 0 + mget Dadt 1 1 + mget Dadt 2 2 in
  let mean := upd (meanStress s) m (meanStress s m + volumeStrain * bulkModulus) in
  let temp := mbuild (fun i j =>
                if i =? j then mget Dadt i j - volumeStrain / r_three
                else mget Dadt i j) in
  let temp := mbuild (fun ty tx => mget temp ty tx * (r_two * shearModulus)) in
  let dev := store6 (devStressData s) k q
               (fun c => devStressData s k q c + lower6 temp c) in
  let localDevStress := sym_tensor (dev k q) in
  let temp := AijBjk Rot localDevStress in
  let localDevStress := AijBkj temp Rot in
  Stress (store6 dev k q (lower6 localDevStress)) mean.

(** The type [constUpdate] of the pointer [updateState_ptr]:
    [(Dadt, Rot, m, q, k, idevStressData, imeanStress, shearModulus,
      bulkModulus)], the two arrays being updated in place. *)
Definition constUpdate : Type :=
  mat3 T -> mat3 T -> nat -> nat -> nat -> stress_state -> T -> T -> stress_state.

End MaterialState.

Arguments stress_state T : clear implicits.
Arguments constUpdate T : clear implicits.

(** ** Data shared by the two layouts *)

Section ElementData.

Context {T : Type} {RT : Real64 T}.

(** The read-only arguments that do not depend on the layout:
    [elemsToNodes], [iconstitutiveMap(k,q)], [idetJ(k,q)] and the two moduli. *)
Record element_data : Type := ElementData {
  elemsToNodes : nat -> nat;
  iconstitutiveMap : nat -> nat -> nat;
  idetJ : nat -> nat -> T;
  ishearModulus : T;
  ibulkModulus : T
}.

(** Three arrays, one per Cartesian component (object of arrays). *)
Record xyz : Type := XYZ {
  arr_x : nat -> T;
  arr_y : nat -> T;
  arr_z : nat -> T
}.

End ElementData.

Arguments element_data T : clear implicits.
Arguments xyz T : clear implicits.

(** ** Intermediate storage of the split kernels and the constitutive kernel *)

Section SplitPhase.

Context {T : Type} {RT : Real64 T}.
Variable NUMQUADPTS : nat.
Local Open Scope r64_scope.

(** [Dadt_ptr(k,q,r,c)], [Rot_ptr(k,q,r,c)], [detF_ptr(k,q)] and
    [Finv_ptr(k,q,r,c)]. *)
Record kinematic_buffers : Type := Buffers {
  Dadt_ptr : nat -> nat -> nat -> nat -> T;
  Rot_ptr : nat -> nat -> nat -> nat -> T;
  detF_ptr : nat -> nat -> T;
  Finv_ptr : nat -> nat -> nat -> nat -> T
}.

(** [for r<LOCAL_DIM, for c<LOCAL_DIM: P(k,q,r,c) = A[r][c]] *)
Definition store_mat (P : nat -> nat -> nat -> nat -> T) (k q : nat) (A : mat3 T)
  : nat -> nat -> nat -> nat -> T :=
  fun k' q' r c =>
    if (k' =? k) && (q' =? q) && (r <? LOCAL_DIM) && (c <? LOCAL_DIM)
    then mget A r c else P k' q' r c.

(** [d(k,q) = v] *)
Definition store2 (d : nat -> nat -> T) (k q : nat) (v : T) : nat -> nat -> T :=
  fun k' q' => if (k' =? k) && (q' =? q) then v else d k' q'.

(** "Write out data to global memory", the end of the quadrature loop of the
    kinematic kernels. *)
Definition write_kinematics (b : kinematic_buffers) (k q : nat) (kin : kinematics T)
  : kinematic_buffers :=
  Buffers (store_mat (Dadt_ptr b) k q (kin_Dadt kin))
          (store_mat (Rot_ptr b) k q (kin_Rot kin))
          (store2 (detF_ptr b) k q (kin_detF kin))
          (store_mat (Finv_ptr b) k q (kin_Finv kin)).

(** The body of the quadrature loop of [ConstitutiveUpdateKernel]. *)
Definition constitutive_body (b : kinematic_buffers) (E : element_data T)
    (k : nat) (s : stress_state T) (q : nat) : stress_state T :=
  let m := iconstitutiveMap E k q in
  let volumeStrain := Dadt_ptr b k q 0 0 + Dadt_ptr b k q 1 1 + Dadt_ptr b k q 2 2 in
  let mean := upd (meanStress s) m
                (meanStress s m + volumeStrain * ibulkModulus E) in
  let temp := mbuild (fun i j =>
                if i =? j then Dadt_ptr b k q i j - volumeStrain / r_three
                else Dadt_ptr b k q i j) in
  let temp := mbuild (fun ty tx => mget temp ty tx * (r_two * ishearModulus E)) in
  let dev := store6 (devStressData s) k q
               (fun c => devStressData s k q c + lower6 temp c) in
  let localDevStress := sym_tensor (dev k q) in
  let Rot := mbuild (fun r c => Rot_ptr b k q r c) in
  let temp := AijBjk Rot localDevStress in
  let localDevStress := AijBkj temp Rot in
  Stress (store6 dev k q (lower6 localDevStress)) mean.

(** [ConstitutiveUpdateKernel]: every quadrature point of the first [noElem]
    entries of [elemList]. *)
Definition ConstitutiveUpdateKernel (noElem : nat) (elemList : list nat)
    (b : kinematic_buffers) (E : element_data T) (s : stress_state T)
  : stress_state T :=
  fold_left
    (fun s k => fold_left (constitutive_body b E k) (seq 0 NUMQUADPTS) s)
    (firstn noElem elemList) s.

End SplitPhase.

Arguments kinematic_buffers T : clear implicits.

(** ** Object-of-arrays layout *)

Module ObjOfArr.
Section Layout.

Context {T : Type} {RT : Real64 T}.
Variable NODESPERELEM : nat.
Variable NUMQUADPTS : nat.
Local Open Scope r64_scope.

(** Nodal displacement [iu_x, iu_y, iu_z], incremental displacement
    [iuhat_x, iuhat_y, iuhat_z] and shape-function derivatives
    [idNdX_x(k,q,a)], [idNdX_y(k,q,a)], [idNdX_z(k,q,a)]. *)
Record fields : Type := Fields {
  iu : xyz T;
  iuhat : xyz T;
  idNdX_x : nat -> nat -> nat -> T;
  idNdX_y : nat -> nat -> nat -> T;
  idNdX_z : nat -> nat -> nat -> T
}.

(** [const localIndex *nodeList = (&elemsToNodes[NODESPERELEM*k])] *)
Definition nodeList (E : element_data T) (k : nat) : nat -> nat :=
  fun a => elemsToNodes E (NODESPERELEM * k + a).

(** Modelled from the spec: [GlobalToLocal] of Layout.hpp (not in the sources
    at hand) copies the nodal values of the element's nodes into the local
    buffers; it reads the global arrays and writes none of them. *)
Definition GlobalToLocal (nl : nat -> nat) (g : xyz T) : xyz T :=
  XYZ (fun a => arr_x g (nl a)) (fun a => arr_y g (nl a)) (fun a => arr_z g (nl a)).

(** Modelled from the spec: [CalculateGradient] of ShapeFun_impl.hpp (not in
    the sources at hand) accumulates [sum_a u[a] (x) dNdX[a]] at the quadrature
    point: [dUdX[i][j] += u_i[a] * dNdX_j(k,q,a)] for every local node [a]. *)
Definition CalculateGradient (dUdX : mat3 T) (u : xyz T) (fl : fields) (k q : nat)
  : mat3 T :=
  fold_left
    (fun g a =>
       mbuild (fun i j =>
         mget g i j
         + comp3 (arr_x u) (arr_y u) (arr_z u) i a
           * comp3 (idNdX_x fl) (idNdX_y fl) (idNdX_z fl) j k q a))
    (seq 0 NODESPERELEM) dUdX.

(** Modelled from the spec: [Integrate] of MatrixMath_impl.hpp (not in the
    sources at hand):
    [f[a] += detJ * detF * TotalStress . Finv^T . dNdX[a]] for every local
    node [a]. *)
Definition Integrate (f : xyz T) (detJ detF : T) (Finv TS : mat3 T)
    (fl : fields) (k q : nat) : xyz T :=
  let P := AijBkj TS Finv in
  let P := mbuild (fun i j => mget P i j * (detJ * detF)) in
  let row i (fi : nat -> T) : nat -> T :=
    fun a =>
      if a <? NODESPERELEM
      then fi a + (mget P i 0 * idNdX_x fl k q a
                   + mget P i 1 * idNdX_y fl k q a
                   + mget P i 2 * idNdX_z fl k q a)
      else fi a in
  XYZ (row 0 (arr_x f)) (row 1 (arr_y f)) (row 2 (arr_z f)).

(** One array of the scatter: [acc[nodeList[a]] += f[a]] for every local
    node [a], in the order of the local numbering. *)
Definition scatter_add (nl : nat -> nat) (f acc : nat -> T) : nat -> T :=
  fold_left (fun g a => upd g (nl a) (g (nl a) + f a)) (seq 0 NODESPERELEM) acc.

(** Modelled from the spec: [AddLocalToGlobal<atomicPol>] of Layout.hpp (not
    in the sources at hand) adds the local nodal forces into the global
    arrays, one add-and-store per node and component. *)
Definition AddLocalToGlobal (nl : nat -> nat) (f acc : xyz T) : xyz T :=
  XYZ (scatter_add nl (arr_x f) (arr_x acc))
      (scatter_add nl (arr_y f) (arr_y acc))
      (scatter_add nl (arr_z f) (arr_z acc)).

(** [real64 f_local_x[NODESPERELEM] = {0}], and likewise y and z. *)
Definition f_local_zero : xyz T :=
  XYZ (fun _ => r_zero) (fun _ => r_zero) (fun _ => r_zero).

(** The quadrature loop up to [HughesWinget]: the two gradients of the local
    buffers, then the per-point kinematics. *)
Definition local_kinematics (u_local uhat_local : xyz T) (fl : fields) (dt : T)
    (k q : nat) : kinematics T :=
  let dUdX := CalculateGradient mzero u_local fl k q in
  let dUhatdX := CalculateGradient mzero uhat_local fl k q in
  point_kinematics dUdX dUhatdX dt.

(** The body of the quadrature loop of [ObjectOfArraysKernel]; the state
    threaded through the loop is the stress arrays and the local force. *)
Definition quadrature_body (E : element_data T) (fl : fields) (dt : T)
    (updateState_ptr : constUpdate T) (k : nat) (u_local uhat_local : xyz T)
    (sf : stress_state T * xyz T) (q : nat) : stress_state T * xyz T :=
  let kin := local_kinematics u_local uhat_local fl dt k q in
  let m := iconstitutiveMap E k q in
  let s := updateState_ptr (kin_Dadt kin) (kin_Rot kin) m q k (fst sf)
             (ishearModulus E) (ibulkModulus E) in
  let TS := TotalStress s k q m in
  (s, Integrate (snd sf) (idetJ E k q) (kin_detF kin) (kin_Finv kin) TS fl k q).

(** The lambda up to the end of the quadrature loop: the gather, then the
    loop over the quadrature points from a zero local force. *)
Definition quadrature_loop (E : element_data T) (fl : fields) (dt : T)
    (updateState_ptr : constUpdate T) (k : nat) (s : stress_state T)
  : stress_state T * xyz T :=
  let u_local := GlobalToLocal (nodeList E k) (iu fl) in
  let uhat_local := GlobalToLocal (nodeList E k) (iuhat fl) in
  fold_left (quadrature_body E fl dt updateState_ptr k u_local uhat_local)
            (seq 0 NUMQUADPTS) (s, f_local_zero).

(** The lambda run for element [k]: the state is the stress arrays and the
    global force/acceleration arrays [iacc_x, iacc_y, iacc_z]. *)
Definition element_body (E : element_data T) (fl : fields) (dt : T)
    (updateState_ptr : constUpdate T)
    (sa : stress_state T * xyz T) (k : nat) : stress_state T * xyz T :=
  let sf := quadrature_loop E fl dt updateState_ptr k (fst sa) in
  (fst sf, AddLocalToGlobal (nodeList E k) (snd sf) (snd sa)).

(** [ObjectOfArraysKernel]: the first [noElem] entries of [elemList]. *)
Definition ObjectOfArraysKernel (noElem : nat) (elemList : list nat) (dt : T)
    (E : element_data T) (fl : fields) (updateState_ptr : constUpdate T)
    (sa : stress_state T * xyz T) : stress_state T * xyz T :=
  fold_left (element_body E fl dt updateState_ptr) (firstn noElem elemList) sa.

(** The kinematic locals of point [(k,q)] as the kernel computes them. *)
Definition kinematics_at (E : element_data T) (fl : fields) (dt : T) (k q : nat)
  : kinematics T :=
  local_kinematics (GlobalToLocal (nodeList E k) (iu fl))
                   (GlobalToLocal (nodeList E k) (iuhat fl)) fl dt k q.

(** The locals [dUdX] and [dUhatdX] of point [(k,q)]. *)
Definition dUdX_at (E : element_data T) (fl : fields) (k q : nat) : mat3 T :=
  CalculateGradient mzero (GlobalToLocal (nodeList E k) (iu fl)) fl k q.

Definition dUhatdX_at (E : element_data T) (fl : fields) (k q : nat) : mat3 T :=
  CalculateGradient mzero (GlobalToLocal (nodeList E k) (iuhat fl)) fl k q.

End Layout.
End ObjOfArr.

(** ** Array-of-objects layout *)

Module ArrOfObj.
Section Layout.

Context {T : Type} {RT : Real64 T}.
Variable NODESPERELEM : nat.
Variable NUMQUADPTS : nat.
Local Open Scope r64_scope.

(** Nodal displacement [iu], incremental displacement [iuhat], addressed by
    node and component, and shape-function derivatives [idNdX(k,q,a,i)]. *)
Record fields : Type := Fields {
  iu : nat -> nat -> T;
  iuhat : nat -> nat -> T;
  idNdX : nat -> nat -> nat -> nat -> T
}.

(** [const localIndex *nodeList = (&elemsToNodes[NODESPERELEM*k])] *)
Definition nodeList (E : element_data T) (k : nat) : nat -> nat :=
  fun a => elemsToNodes E (NODESPERELEM * k + a).

(** [a(n,i) = v] *)
Definition upd2 (f : nat -> nat -> T) (n i : nat) (v : T) : nat -> nat -> T :=
  fun n' i' => if (n' =? n) && (i' =? i) then v else f n' i'.

(** Modelled from the spec: [GlobalToLocal] of Layout.hpp (not in the sources
    at hand).  The local buffer [u_local[LOCAL_DIM*NODESPERELEM]] is addressed
    by local node and component. *)
Definition GlobalToLocal (nl : nat -> nat) (g : nat -> nat -> T) : nat -> nat -> T :=
  fun a i => g (nl a) i.

(** Modelled from the spec: [CalculateGradient] of ShapeFun_impl.hpp (not in
    the sources at hand): [dUdX[i][j] += u(a,i) * dNdX(k,q,a,j)] for every
    local node [a]. *)
Definition CalculateGradient (dUdX : mat3 T) (u : nat -> nat -> T) (fl : fields)
    (k q : nat) : mat3 T :=
  fold_left
    (fun g a => mbuild (fun i j => mget g i j + u a i * idNdX fl k q a j))
    (seq 0 NODESPERELEM) dUdX.

(** Modelled from the spec: [Integrate] of MatrixMath_impl.hpp (not in the
    sources at hand):
    [f(a,i) += sum_j (detJ * detF * TotalStress . Finv^T)[i][j] * dNdX(k,q,a,j)]. *)
Definition Integrate (f : nat -> nat -> T) (detJ detF : T) (Finv TS : mat3 T)
    (fl : fields) (k q : nat) : nat -> nat -> T :=
  let P := AijBkj TS Finv in
  let P := mbuild (fun i j => mget P i j * (detJ * detF)) in
  fun a i =>
    if (a <? NODESPERELEM) && (i <? LOCAL_DIM)
    then f a i + (mget P i 0 * idNdX fl k q a 0
                  + mget P i 1 * idNdX fl k q a 1
                  + mget P i 2 * idNdX fl k q a 2)
    else f a i.

(** Modelled from the spec: the overload of [Integrate] the integration
    kernel calls with the intermediate storage [Finv_ptr] and the point
    [(k,q)]: the same accumulation, on [Finv_ptr(k,q,.,.)]. *)
Definition Integrate_stored (f : nat -> nat -> T) (detJ detF : T)
    (Finv_p : nat -> nat -> nat -> nat -> T) (TS : mat3 T)
    (fl : fields) (k q : nat) : nat -> nat -> T :=
  Integrate f detJ detF (mbuild (fun r c => Finv_p k q r c)) TS fl k q.

(** Modelled from the spec: [AddLocalToGlobal<atomicPol>] of Layout.hpp (not
    in the sources at hand): [iacc(nodeList[a],i) += f_local(a,i)], one
    add-and-store per node and component. *)
Definition AddLocalToGlobal (nl : nat -> nat) (f acc : nat -> nat -> T)
  : nat -> nat -> T :=
  fold_left
    (fun g a =>
       fold_left (fun g i => upd2 g (nl a) i (g (nl a) i + f a i))
                 (seq 0 LOCAL_DIM) g)
    (seq 0 NODESPERELEM) acc.

(** [real64 f_local[LOCAL_DIM*NODESPERELEM] = {0}] *)
Definition f_local_zero : nat -> nat -> T := fun _ _ => r_zero.

(** The quadrature loop up to [HughesWinget]. *)
Definition local_kinematics (u_local uhat_local : nat -> nat -> T) (fl : fields)
    (dt : T) (k q : nat) : kinematics T :=
  let dUdX := CalculateGradient mzero u_local fl k q in
  let dUhatdX := CalculateGradient mzero uhat_local fl k q in
  point_kinematics dUdX dUhatdX dt.

(** The kinematic locals of point [(k,q)] as the kernels compute them. *)
Definition kinematics_at (E : element_data T) (fl : fields) (dt : T) (k q : nat)
  : kinematics T :=
  local_kinematics (GlobalToLocal (nodeList E k) (iu fl))
                   (GlobalToLocal (nodeList E k) (iuhat fl)) fl dt k q.

(** The locals [dUdX] and [dUhatdX] of point [(k,q)]. *)
Definition dUdX_at (E : element_data T) (fl : fields) (k q : nat) : mat3 T :=
  CalculateGradient mzero (GlobalToLocal (nodeList E k) (iu fl)) fl k q.

Definition dUhatdX_at (E : element_data T) (fl : fields) (k q : nat) : mat3 T :=
  CalculateGradient mzero (GlobalToLocal (nodeList E k) (iuhat fl)) fl k q.

(** *** The monolithic kernel *)

(** The body of the quadrature loop of [ArrayOfObjectsKernel]. *)
Definition quadrature_body (E : element_data T) (fl : fields) (dt : T)
    (updateState_ptr : constUpdate T) (k : nat)
    (u_local uhat_local : nat -> nat -> T)
    (sf : stress_state T * (nat -> nat -> T)) (q : nat)
  : stress_state T * (nat -> nat -> T) :=
  let kin := local_kinematics u_local uhat_local fl dt k q in
  let m := iconstitutiveMap E k q in
  let s := updateState_ptr (kin_Dadt kin) (kin_Rot kin) m q k (fst sf)
             (ishearModulus E) (ibulkModulus E) in
  let TS := TotalStress s k q m in
  (s, Integrate (snd sf) (idetJ E k q) (kin_detF kin) (kin_Finv kin) TS fl k q).

Definition quadrature_loop (E : element_data T) (fl : fields) (dt : T)
    (updateState_ptr : constUpdate T) (k : nat) (s : stress_state T)
  : stress_state T * (nat -> nat -> T) :=
  let u_local := GlobalToLocal (nodeList E k) (iu fl) in
  let uhat_local := GlobalToLocal (nodeList E k) (iuhat fl) in
  fold_left (quadrature_body E fl dt updateState_ptr k u_local uhat_local)
            (seq 0 NUMQUADPTS) (s, f_local_zero).

Definition element_body (E : element_data T) (fl : fields) (dt : T)
    (updateState_ptr : constUpdate T)
    (sa : stress_state T * (nat -> nat -> T)) (k : nat)
  : stress_state T * (nat -> nat -> T) :=
  let sf := quadrature_loop E fl dt updateState_ptr k (fst sa) in
  (fst sf, AddLocalToGlobal (nodeList E k) (snd sf) (snd sa)).

(** [ArrayOfObjectsKernel]: the first [noElem] entries of [elemList]; the
    state is the stress arrays and the global array [iacc]. *)
Definition ArrayOfObjectsKernel (noElem : nat) (elemList : list nat) (dt : T)
    (E : element_data T) (fl : fields) (updateState_ptr : constUpdate T)
    (sa : stress_state T * (nat -> nat -> T))
  : stress_state T * (nat -> nat -> T) :=
  fold_left (element_body E fl dt updateState_ptr) (firstn noElem elemList) sa.

(** *** The split kernels *)

(** The lambda of [ArrayOfObjects_KinematicKernel] for element [k]. *)
Definition kinematic_element (E : element_data T) (fl : fields) (dt : T)
    (b : kinematic_buffers T) (k : nat) : kinematic_buffers T :=
  let u_local := GlobalToLocal (nodeList E k) (iu fl) in
  let uhat_local := GlobalToLocal (nodeList E k) (iuhat fl) in
  fold_left
    (fun b q => write_kinematics b k q (local_kinematics u_local uhat_local fl dt k q))
    (seq 0 NUMQUADPTS) b.

(** [ArrayOfObjects_KinematicKernel] *)
Definition ArrayOfObjects_KinematicKernel (noElem : nat) (elemList : list nat)
    (dt : T) (E : element_data T) (fl : fields) (b : kinematic_buffers T)
  : kinematic_buffers T :=
  fold_left (kinematic_element E fl dt) (firstn noElem elemList) b.

(** The body of the quadrature loop of [ArrayOfObjects_IntegrationKernel]. *)
Definition integration_body (E : element_data T) (fl : fields)
    (b : kinematic_buffers T) (s : stress_state T) (k : nat)
    (f : nat -> nat -> T) (q : nat) : nat -> nat -> T :=
  let m := iconstitutiveMap E k q in
  let TS := TotalStress s k q m in
  Integrate_stored f (idetJ E k q) (detF_ptr b k q) (Finv_ptr b) TS fl k q.

(** [ArrayOfObjects_IntegrationKernel]: the stress arrays are read only. *)
Definition ArrayOfObjects_IntegrationKernel (noElem : nat) (elemList : list nat)
    (E : element_data T) (fl : fields) (b : kinematic_buffers T)
    (s : stress_state T) (acc : nat -> nat -> T) : nat -> nat -> T :=
  fold_left
    (fun acc k =>
       let f := fold_left (integration_body E fl b s k) (seq 0 NUMQUADPTS)
                          f_local_zero in
       AddLocalToGlobal (nodeList E k) f acc)
    (firstn noElem elemList) acc.

(** The three split kernels in sequence, from given intermediate storage. *)
Definition split_phase (noElem : nat) (elemList : list nat) (dt : T)
    (E : element_data T) (fl : fields) (b : kinematic_buffers T)
    (sa : stress_state T * (nat -> nat -> T))
  : stress_state T * (nat -> nat -> T) :=
  let b := ArrayOfObjects_KinematicKernel noElem elemList dt E fl b in
  let s := ConstitutiveUpdateKernel NUMQUADPTS noElem elemList b E (fst sa) in
  (s, ArrayOfObjects_IntegrationKernel noElem elemList E fl b s (snd sa)).

End Layout.
End ArrOfObj.

(** ** The specification's vocabulary

    The tensor algebra in which the specification states the kernels'
    results.  These definitions follow the specification's formulas, not the
    code. *)

Section TensorAlgebra.

Context {T : Type} {RT : Real64 T}.
Local Open Scope r64_scope.

Definition madd (A B : mat3 T) : mat3 T :=
  mbuild (fun i j => mget A i j + mget B i j).

Definition msub (A B : mat3 T) : mat3 T :=
  mbuild (fun i j => mget A i j - mget B i j).

Definition mscale (c : T) (A : mat3 T) : mat3 T :=
  mbuild (fun i j => c * mget A i j).

Definition mdiv (A : mat3 T) (c : T) : mat3 T :=
  mbuild (fun i j => mget A i j / c).

Definition mtranspose (A : mat3 T) : mat3 T :=
  mbuild (fun i j => mget A j i).

Definition mmul (A B : mat3 T) : mat3 T :=
  mbuild (fun i k =>
    mget A i 0 * mget B 0 k + mget A i 1 * mget B 1 k + mget A i 2 * mget B 2 k).

Definition mtrace (A : mat3 T) : T := m00 A + m11 A + m22 A.

Definition msymmetric (A : mat3 T) : Prop :=
  m01 A = m10 A /\ m02 A = m20 A /\ m12 A = m21 A.

(** [F = I + dUdX + 0.5 dUhatdX] *)
Definition F_midpoint (dUdX dUhatdX : mat3 T) : mat3 T :=
  madd (madd midentity dUdX) (mscale r_half dUhatdX).

(** [F_end = I + dUdX + dUhatdX] *)
Definition F_end (dUdX dUhatdX : mat3 T) : mat3 T :=
  madd (madd midentity dUdX) dUhatdX.

(** [L = (dUhatdX / dt) . F^-1] *)
Definition L_spec (dUdX dUhatdX : mat3 T) (dt : T) : mat3 T :=
  mmul (mdiv dUhatdX dt) (Finverse (F_midpoint dUdX dUhatdX)).

End TensorAlgebra.

(** The reference linear-elastic update in the specification's words, on the
    six stored deviatoric components and the mean stress of one point:
    mean stress [+= trace(Dadt) * bulkModulus]; deviatoric stress
    [+= 2 * shearModulus * (Dadt - trace(Dadt)/3 * I)]; then the updated
    deviatoric tensor [S] is replaced by [Rot . S . Rot^T]. *)
Section LinearElasticSpec.

Context {T : Type} {RT : Real64 T}.
Local Open Scope r64_scope.

Definition linear_elastic_spec (Dadt Rot : mat3 T) (shearModulus bulkModulus : T)
    (dev6 : nat -> T) (mean : T) : (nat -> T) * T :=
  let tr := mtrace Dadt in
  let increment :=
    mscale (r_two * shearModulus) (msub Dadt (mscale (tr / r_three) midentity)) in
  let S := sym_tensor (fun c => dev6 c + lower6 increment c) in
  let S' := mmul (mmul Rot S) (mtranspose Rot) in
  (lower6 S', mean + tr * bulkModulus).

(** The storage slot of the entry [(i,j)] of a symmetric tensor: the entry
    of the lower triangle it mirrors, rows [(0,0)], [(1,0) (1,1)],
    [(2,0) (2,1) (2,2)] numbered 0 to 5. *)
Definition stored_index (i j : nat) : nat :=
  let r := Nat.max i j in
  let c := Nat.min i j in
  r * (r + 1) / 2 + c.

(** The recombination of the stored state: the six components mirrored, the
    mean stress added on the diagonal. *)
Definition recombine (dev6 : nat -> T) (mean : T) : mat3 T :=
  mbuild (fun i j =>
    if i =? j then dev6 (stored_index i j) + mean else dev6 (stored_index i j)).

End LinearElasticSpec.

(** ** The stress updates of a kernel run

    What a monolithic kernel does to the stress arrays when the update it is
    handed is [UpdateStatePoint] and the kinematic locals of point [(k,q)]
    are [kin k q]: the updates of the quadrature points of the listed
    elements, in loop order. *)

Section PointUpdates.

Context {T : Type} {RT : Real64 T}.
Variable NUMQUADPTS : nat.
Variable E : element_data T.
Variable kin : nat -> nat -> kinematics T.

Definition update_at (k : nat) (s : stress_state T) (q : nat) : stress_state T :=
  UpdateStatePoint (kin_Dadt (kin k q)) (kin_Rot (kin k q))
    (iconstitutiveMap E k q) q k s (ishearModulus E) (ibulkModulus E).

Definition update_element (s : stress_state T) (k : nat) : stress_state T :=
  fold_left (update_at k) (seq 0 NUMQUADPTS) s.

Definition update_elements (ks : list nat) (s : stress_state T) : stress_state T :=
  fold_left update_element ks s.

End PointUpdates.

(** The material-instance indices of the quadrature points a kernel visits,
    in loop order, with repetitions. *)
Definition material_indices {T : Type} (NUMQUADPTS : nat) (E : element_data T)
    (ks : list nat) : list nat :=
  flat_map (fun k => map (iconstitutiveMap E k) (seq 0 NUMQUADPTS)) ks.

(** The intermediate storage holds, at point [(k,q)], the kinematic locals
    the array-of-objects kernels compute there. *)
Definition buffers_hold {T : Type} {RT : Real64 T} (NODESPERELEM : nat)
    (E : element_data T) (fl : ArrOfObj.fields) (dt : T)
    (b : kinematic_buffers T) (k q : nat) : Prop :=
  let kin := ArrOfObj.kinematics_at NODESPERELEM E fl dt k q in
  mbuild (Dadt_ptr b k q) = kin_Dadt kin
  /\ mbuild (Rot_ptr b k q) = kin_Rot kin
  /\ detF_ptr b k q = kin_detF kin
  /\ mbuild (Finv_ptr b k q) = kin_Finv kin.

(** ** The claims that fail, as propositions *)

(** "A constitutive update for one quadrature point mutates no other
    quadrature point's persistent stress state": the state of point
    [(k',q')] is its six deviatoric components and the mean stress of its
    material index. *)
Definition per_point_state_distinct {T : Type} {RT : Real64 T}
    (b : kinematic_buffers T) (E : element_data T) (s : stress_state T) : Prop :=
  forall k q k' q', (k', q') <> (k, q) ->
    let s' := constitutive_body b E k s q in
    (forall c, devStressData s' k' q' c = devStressData s k' q' c)
    /\ meanStress s' (iconstitutiveMap E k' q') = meanStress s (iconstitutiveMap E k' q').

(** "The split kernels in sequence produce the same final stress state and
    nodal force/acceleration values as the monolithic kernel with the
    linear-elastic update." *)
Definition split_equals_monolithic {T : Type} {RT : Real64 T}
    (NODESPERELEM NUMQUADPTS noElem : nat) (elemList : list nat) (dt : T)
    (E : element_data T) (fl : ArrOfObj.fields) (b : kinematic_buffers T)
    (sa : stress_state T * (nat -> nat -> T)) : Prop :=
  let mono :=
    ArrOfObj.ArrayOfObjectsKernel NODESPERELEM NUMQUADPTS noElem elemList dt E fl
      (@UpdateStatePoint T RT) sa in
  let split :=
    ArrOfObj.split_phase NODESPERELEM NUMQUADPTS noElem elemList dt E fl b sa in
  (forall k q c, devStressData (fst split) k q c = devStressData (fst mono) k q c)
  /\ (forall m, meanStress (fst split) m = meanStress (fst mono) m)
  /\ (forall n i, snd split n i = snd mono n i).

(** "For an element with [detF <= 0] no downstream array is modified": the
    stress state of the element's points and the force/acceleration entries
    of its nodes come out of [ObjectOfArraysKernel] as they went in.  (The
    kernel returns no failure value, so the rest of the claim has nothing to
    be stated on.) *)
Definition inverted_element_untouched (NODESPERELEM NUMQUADPTS : nat) (dt : float)
    (E : element_data float) (fl : ObjOfArr.fields)
    (sa : stress_state float * xyz float) (k : nat) : Prop :=
  (exists q, q < NUMQUADPTS /\
     PrimFloat.leb (kin_detF (ObjOfArr.kinematics_at NODESPERELEM E fl dt k q)) 0 = true) ->
  let out :=
    ObjOfArr.ObjectOfArraysKernel NODESPERELEM NUMQUADPTS 1 [k] dt E fl
      (@UpdateStatePoint float _) sa in
  (forall q c, q < NUMQUADPTS ->
     devStressData (fst out) k q c = devStressData (fst sa) k q c)
  /\ (forall q, q < NUMQUADPTS ->
        meanStress (fst out) (iconstitutiveMap E k q)
        = meanStress (fst sa) (iconstitutiveMap E k q))
  /\ (forall a, a < NODESPERELEM ->
        let n := ObjOfArr.nodeList NODESPERELEM E k a in
        arr_x (snd out) n = arr_x (snd sa) n
        /\ arr_y (snd out) n = arr_y (snd sa) n
        /\ arr_z (snd out) n = arr_z (snd sa) n).

(** ** Concrete runs in binary64

    Hexahedra with eight nodes and eight quadrature points; element [k] owns
    the nodes [8k .. 8k+7]. *)

Section ConcreteRuns.

Local Open Scope float_scope.

(** Every quadrature point mapped to material index 0. *)
Definition shared_index_data : element_data float :=
  ElementData (fun i => i) (fun _ _ => 0%nat) (fun _ _ => 1) 1 1.

(** Point [(k,q)] mapped to material index [8k+q]. *)
Definition distinct_index_data : element_data float :=
  ElementData (fun i => i) (fun k q => (8 * k + q)%nat) (fun _ _ => 1) 1 1.

Definition zero_stress : stress_state float :=
  Stress (fun _ _ _ => 0) (fun _ => 0).

Definition zero_buffers : kinematic_buffers float :=
  Buffers (fun _ _ _ _ => 0) (fun _ _ _ _ => 0) (fun _ _ => 0) (fun _ _ _ _ => 0).

(** Intermediate storage with [Dadt = I] and [Rot = I] at every point. *)
Definition unit_strain_buffers : kinematic_buffers float :=
  Buffers (fun _ _ r c => if (r =? c)%nat then 1 else 0)
          (fun _ _ r c => if (r =? c)%nat then 1 else 0)
          (fun _ _ => 1)
          (fun _ _ r c => if (r =? c)%nat then 1 else 0).

(** Array of objects: node 0 displaced by [-3] in x, incremented by [6];
    only local node 0 has a shape-function derivative, [dN/dx = 1].  Then
    [dUdX = diag(-3,0,0)], [dUhatdX = diag(6,0,0)], the midpoint gradient is
    the identity and the end-of-step gradient is [diag(4,1,1)]. *)
Definition stretch_fields : ArrOfObj.fields :=
  ArrOfObj.Fields
    (fun n i => match n, i with 0%nat, 0%nat => -3 | _, _ => 0 end)
    (fun n i => match n, i with 0%nat, 0%nat => 6 | _, _ => 0 end)
    (fun _ _ a i => match a, i with 0%nat, 0%nat => 1 | _, _ => 0 end).

Definition zero_acc : nat -> nat -> float := fun _ _ => 0.

(** Object of arrays: node 0 displaced by [-8] in x, incremented by [6]; only
    local node 0 has a shape-function derivative, [dN/dx = 1].  Then
    [dUdX = diag(-8,0,0)], [dUhatdX = diag(6,0,0)], the midpoint gradient is
    [diag(-4,1,1)] and the end-of-step gradient is [diag(-1,1,1)], of
    determinant [-1]: the element is inverted. *)
Definition inverted_fields : ObjOfArr.fields :=
  let zero := fun _ : nat => 0 in
  let dN0 := fun (_ _ a : nat) => match a with 0%nat => 1 | _ => 0 end in
  let dNz := fun (_ _ _ : nat) => 0 in
  ObjOfArr.Fields
    (XYZ (fun n => match n with 0%nat => -8 | _ => 0 end) zero zero)
    (XYZ (fun n => match n with 0%nat => 6 | _ => 0 end) zero zero)
    dN0 dNz dNz.

Definition zero_xyz : xyz float := XYZ (fun _ => 0) (fun _ => 0) (fun _ => 0).

End ConcreteRuns.

(** ** The scatter step of the element loop *)


(** The arithmetic sum of the element contributions to a node
    (specification side). *)
Definition Rsum (l : list R) : R := fold_right Rplus 0%R l.


(** ** Further concrete data *)

(** Exact arithmetic: an element at rest (no displacement, no increment). *)
Definition rest_data : element_data R :=
  ElementData (fun i => i) (fun k q => 8 * k + q) (fun _ _ => 1%R) 1%R 1%R.

Definition rest_fields : ObjOfArr.fields :=
  let zero := fun _ : nat => 0%R in
  let one := fun _ _ _ : nat => 1%R in
  ObjOfArr.Fields (XYZ zero zero zero) (XYZ zero zero zero) one one one.

Definition zero_stress_exact : stress_state R :=
  Stress (fun _ _ _ => 0%R) (fun _ => 0%R).



Definition zero_xyz_exact : xyz R :=
  XYZ (fun _ => 0%R) (fun _ => 0%R) (fun _ => 0%R).




(** A binary64 value that is not a finite number: a NaN or an infinity. *)
Definition SF_nonfinite (x : spec_float) : bool :=
  match x with
  | S754_nan | S754_infinity _ => true
  | _ => false
  end.


(** ** The split kernels of the object-of-arrays layout *)

Section ObjectOfArraysSplit.

Context {T : Type} {RT : Real64 T}.
Variable NODESPERELEM : nat.
Variable NUMQUADPTS : nat.

(** The lambda of [ObjectOfArrays_KinematicKernel] for element [k]. *)
Definition OoA_kinematic_element (E : element_data T) (fl : ObjOfArr.fields)
    (dt : T) (b : kinematic_buffers T) (k : nat) : kinematic_buffers T :=
  let u_local :=
    ObjOfArr.GlobalToLocal (ObjOfArr.nodeList NODESPERELEM E k) (ObjOfArr.iu fl) in
  let uhat_local :=
    ObjOfArr.GlobalToLocal (ObjOfArr.nodeList NODESPERELEM E k) (ObjOfArr.iuhat fl) in
  fold_left
    (fun b q =>
       write_kinematics b k q
         (ObjOfArr.local_kinematics NODESPERELEM u_local uhat_local fl dt k q))
    (seq 0 NUMQUADPTS) b.

(** [ObjectOfArrays_KinematicKernel] *)
Definition ObjectOfArrays_KinematicKernel (noElem : nat) (elemList : list nat)
    (dt : T) (E : element_data T) (fl : ObjOfArr.fields) (b : kinematic_buffers T)
  : kinematic_buffers T :=
  fold_left (OoA_kinematic_element E fl dt) (firstn noElem elemList) b.

(** Modelled from the spec: the overload of [Integrate] that
    [ObjectOfArrays_IntegrationKernel] calls with the intermediate storage
    [Finv_ptr] and the point [(k,q)]: the accumulation of
    [ObjOfArr.Integrate], on [Finv_ptr(k,q,.,.)]. *)
Definition OoA_Integrate_stored (f : xyz T) (detJ detF : T)
    (Finv_p : nat -> nat -> nat -> nat -> T) (TS : mat3 T)
    (fl : ObjOfArr.fields) (k q : nat) : xyz T :=
  ObjOfArr.Integrate NODESPERELEM f detJ detF (mbuild (fun r c => Finv_p k q r c))
    TS fl k q.

(** The body of the quadrature loop of [ObjectOfArrays_IntegrationKernel]. *)
Definition OoA_integration_body (E : element_data T) (fl : ObjOfArr.fields)
    (b : kinematic_buffers T) (s : stress_state T) (k : nat)
    (f : xyz T) (q : nat) : xyz T :=
  let m := iconstitutiveMap E k q in
  let TS := TotalStress s k q m in
  OoA_Integrate_stored f (idetJ E k q) (detF_ptr b k q) (Finv_ptr b) TS fl k q.

(** [ObjectOfArrays_IntegrationKernel]: the stress arrays are read only. *)
Definition ObjectOfArrays_IntegrationKernel (noElem : nat) (elemList : list nat)
    (E : element_data T) (fl : ObjOfArr.fields) (b : kinematic_buffers T)
    (s : stress_state T) (acc : xyz T) : xyz T :=
  fold_left
    (fun acc k =>
       let f := fold_left (OoA_integration_body E fl b s k) (seq 0 NUMQUADPTS)
                          ObjOfArr.f_local_zero in
       ObjOfArr.AddLocalToGlobal NODESPERELEM (ObjOfArr.nodeList NODESPERELEM E k)
         f acc)
    (firstn noElem elemList) acc.

(** The three split kernels of the layout in sequence. *)
Definition OoA_split_phase (noElem : nat) (elemList : list nat) (dt : T)
    (E : element_data T) (fl : ObjOfArr.fields) (b : kinematic_buffers T)
    (sa : stress_state T * xyz T) : stress_state T * xyz T :=
  let b := ObjectOfArrays_KinematicKernel noElem elemList dt E fl b in
  let s := ConstitutiveUpdateKernel NUMQUADPTS noElem elemList b E (fst sa) in
  (s, ObjectOfArrays_IntegrationKernel noElem elemList E fl b s (snd sa)).

End ObjectOfArraysSplit.

(** ** Reading the intermediate storage *)

Section StoredKinematics.

Context {T : Type} {RT : Real64 T}.

(** The intermediate storage of point [(k,q)] read back as kinematic locals;
    the velocity gradient is not stored. *)
Definition stored_kinematics (b : kinematic_buffers T) (k q : nat) : kinematics T :=
  Kin mzero (detF_ptr b k q) (mbuild (Finv_ptr b k q))
      (mbuild (Rot_ptr b k q)) (mbuild (Dadt_ptr b k q)).

(** Point [(k,q)] is visited by the loops over the elements [ks] and their
    quadrature points. *)
Definition visited (NUMQUADPTS : nat) (ks : list nat) (k q : nat) : bool :=
  existsb (Nat.eqb k) ks && (q <? NUMQUADPTS).

(** The points visited, in loop order. *)
Definition visited_points (NUMQUADPTS : nat) (ks : list nat) : list (nat * nat) :=
  flat_map (fun k => map (pair k) (seq 0 NUMQUADPTS)) ks.

(** The storage in which every visited point holds the locals [kin k q] and
    every other entry is the entry of [b]. *)
Definition written_buffers (kin : nat -> nat -> kinematics T) (NUMQUADPTS : nat)
    (ks : list nat) (b : kinematic_buffers T) : kinematic_buffers T :=
  let inside k q r c :=
    visited NUMQUADPTS ks k q && (r <? LOCAL_DIM) && (c <? LOCAL_DIM) in
  Buffers
    (fun k q r c =>
       if inside k q r c then mget (kin_Dadt (kin k q)) r c else Dadt_ptr b k q r c)
    (fun k q r c =>
       if inside k q r c then mget (kin_Rot (kin k q)) r c else Rot_ptr b k q r c)
    (fun k q => if visited NUMQUADPTS ks k q then kin_detF (kin k q) else detF_ptr b k q)
    (fun k q r c =>
       if inside k q r c then mget (kin_Finv (kin k q)) r c else Finv_ptr b k q r c).

(** Two storages with the same entries. *)
Definition buffers_agree (b1 b2 : kinematic_buffers T) : Prop :=
  forall k q,
    detF_ptr b1 k q = detF_ptr b2 k q
    /\ forall r c,
         Dadt_ptr b1 k q r c = Dadt_ptr b2 k q r c
         /\ Rot_ptr b1 k q r c = Rot_ptr b2 k q r c
         /\ Finv_ptr b1 k q r c = Finv_ptr b2 k q r c.

(** Two stress states with the same entries. *)
Definition stress_agree (s1 s2 : stress_state T) : Prop :=
  (forall k q c, devStressData s1 k q c = devStressData s2 k q c)
  /\ (forall m, meanStress s1 m = meanStress s2 m).

(** The intermediate storage holds, at point [(k,q)], the kinematic locals
    the object-of-arrays kernels compute there. *)
Definition OoA_buffers_hold (NODESPERELEM : nat)
    (E : element_data T) (fl : ObjOfArr.fields) (dt : T)
    (b : kinematic_buffers T) (k q : nat) : Prop :=
  let kin := ObjOfArr.kinematics_at NODESPERELEM E fl dt k q in
  mbuild (Dadt_ptr b k q) = kin_Dadt kin
  /\ mbuild (Rot_ptr b k q) = kin_Rot kin
  /\ detF_ptr b k q = kin_detF kin
  /\ mbuild (Finv_ptr b k q) = kin_Finv kin.

(** The entrywise product summed, [sum_ij A[i][j] * B[i][j]]
    (specification side). *)
Definition mdot (A B : mat3 T) : T :=
  r_add (r_add (r_add (r_mul (m00 A) (m00 B)) (r_mul (m01 A) (m01 B)))
               (r_add (r_mul (m02 A) (m02 B)) (r_mul (m10 A) (m10 B))))
        (r_add (r_add (r_mul (m11 A) (m11 B)) (r_mul (m12 A) (m12 B)))
               (r_add (r_mul (m20 A) (m20 B))
                      (r_add (r_mul (m21 A) (m21 B)) (r_mul (m22 A) (m22 B))))).

End StoredKinematics.

(** ** Time-stepping routines

    The five overloads of [OnePoint], [y += dx * dydx] over a range or a set
    of indices.  An array of [R1Tensor] is a function from the index to the
    three components. *)

Section TimeStepping.

Context {T : Type} {RT : Real64 T}.
Local Open Scope r64_scope.

(** [R1Tensor v], with [v[0]], [v[1]], [v[2]]. *)
Record R1Tensor : Type := Tensor1 { t0 : T; t1 : T; t2 : T }.

(** [y[a][i] += dx*dydx[a][i]] for [i = 0, 1, 2]. *)
Definition advance (dydx : nat -> R1Tensor) (dx : T) (y : nat -> R1Tensor)
    (a : nat) : nat -> R1Tensor :=
  upd y a (Tensor1 (t0 (y a) + dx * t0 (dydx a))
              (t1 (y a) + dx * t1 (dydx a))
              (t2 (y a) + dx * t2 (dydx a))).

(** [OnePoint(dydx, y, dx, length)]: [forall_in_range(0, length, ...)]. *)
Definition OnePoint (dydx y : nat -> R1Tensor) (dx : T) (length : nat)
  : nat -> R1Tensor :=
  fold_left (advance dydx dx) (seq 0 length) y.

(** [OnePoint(dydx, y, dx, indices, length)]:
    [forall_in_set(indices, length, ...)], the first [length] entries of
    [indices]. *)
Definition OnePoint_indices (dydx y : nat -> R1Tensor) (dx : T)
    (indices : list nat) (length : nat) : nat -> R1Tensor :=
  fold_left (advance dydx dx) (firstn length indices) y.

(** [OnePoint(dydx_0, dydx_1, dydx_2, y, dx, length)]: the derivative in
    three arrays, [y[a][i] += dx*dydx_i[a]]. *)
Definition OnePoint_components (dydx_0 dydx_1 dydx_2 : nat -> T)
    (y : nat -> R1Tensor) (dx : T) (length : nat) : nat -> R1Tensor :=
  fold_left
    (fun y a =>
       upd y a (Tensor1 (t0 (y a) + dx * dydx_0 a)
                   (t1 (y a) + dx * dydx_1 a)
                   (t2 (y a) + dx * dydx_2 a)))
    (seq 0 length) y.

(** [OnePoint(dydx, dy, y, dx, length)]: [dy[a][i] = dydx[a][i] * dx], then
    [y[a][i] += dy[a][i]]; the result is the pair [(dy, y)]. *)
Definition OnePoint_dy (dydx dy y : nat -> R1Tensor) (dx : T) (length : nat)
  : (nat -> R1Tensor) * (nat -> R1Tensor) :=
  fold_left
    (fun st a =>
       let dy := upd (fst st) a (Tensor1 (t0 (dydx a) * dx) (t1 (dydx a) * dx)
                                    (t2 (dydx a) * dx)) in
       let y := upd (snd st) a (Tensor1 (t0 (snd st a) + t0 (dy a))
                                   (t1 (snd st a) + t1 (dy a))
                                   (t2 (snd st a) + t2 (dy a))) in
       (dy, y))
    (seq 0 length) (dy, y).

(** [OnePoint(dydx, dy_1, dy_2, dy_3, y_1, y_2, y_3, dx, length)]: the same
    with [dy] and [y] in three arrays each; the result is the pair
    [(dy, y)]. *)
Definition OnePoint_dy_components (dydx : nat -> R1Tensor) (dy y : xyz T) (dx : T)
    (length : nat) : xyz T * xyz T :=
  fold_left
    (fun st a =>
       let dy_1 := upd (arr_x (fst st)) a (t0 (dydx a) * dx) in
       let dy_2 := upd (arr_y (fst st)) a (t1 (dydx a) * dx) in
       let dy_3 := upd (arr_z (fst st)) a (t2 (dydx a) * dx) in
       let y_1 := upd (arr_x (snd st)) a (arr_x (snd st) a + dy_1 a) in
       let y_2 := upd (arr_y (snd st)) a (arr_y (snd st) a + dy_2 a) in
       let y_3 := upd (arr_z (snd st)) a (arr_z (snd st) a + dy_3 a) in
       (XYZ dy_1 dy_2 dy_3, XYZ y_1 y_2 y_3))
    (seq 0 length) (dy, y).

(** One step [y + dx * d] on a tensor (specification side). *)
Definition advanced (dx : T) (d v : R1Tensor) : R1Tensor :=
  Tensor1 (t0 v + dx * t0 d) (t1 v + dx * t1 d) (t2 v + dx * t2 d).

End TimeStepping.

Arguments R1Tensor T : clear implicits.

(** ** Concrete data for the time-stepping routines and the constitutive
    kernel (exact arithmetic) *)

Definition unit_rates : nat -> R1Tensor R := fun _ => Tensor1 1%R 2%R 3%R.

Definition zero_tensors : nat -> R1Tensor R := fun _ => Tensor1 0%R 0%R 0%R.

(** Intermediate storage with [Dadt = I] and [Rot = I] at every point. *)
Definition identity_rotation_buffers : kinematic_buffers R :=
  Buffers (fun _ _ r c => if r =? c then 1%R else 0%R)
          (fun _ _ r c => if r =? c then 1%R else 0%R)
          (fun _ _ => 1%R)
          (fun _ _ r c => if r =? c then 1%R else 0%R).

(** Exact arithmetic: every node displaced by [1] in x and held there (no
    increment); all shape-function derivatives are [1]. *)
Definition held_fields : ObjOfArr.fields :=
  let zero := fun _ : nat => 0%R in
  let one := fun _ _ _ : nat => 1%R in
  ObjOfArr.Fields (XYZ (fun _ => 1%R) zero zero) (XYZ zero zero zero) one one one.

(** * Proofs *)

Unset Implicit Arguments.

(** * Exact arithmetic: the algebraic laws *)

(** Reading the interface at the real numbers. *)
Ltac r64 :=
  cbv [r_zero r_one r_half r_two r_three r_add r_sub r_mul r_div Real64_R] in *.

(** Unfolding the 3x3 tensor operations down to their entries. *)
Ltac munfold :=
  cbv [velocity_gradient scaled_increment midpoint_gradient
       end_of_step_gradient L_spec F_midpoint F_end madd msub mscale mdiv
       mmul mtranspose mtrace AijBjk AijBkj add_to_diagonal midentity mzero
       mbuild mget m00 m01 m02 m10 m11 m12 m20 m21 m22 Nat.eqb].

Section ExactArithmetic.

Local Open Scope R_scope.

Lemma midpoint_gradient_spec (dUdX dUhatdX : mat3 R) :
  midpoint_gradient dUdX dUhatdX = F_midpoint dUdX dUhatdX.
Proof.
  munfold. r64. f_equal; lra.
Qed.

Lemma end_of_step_gradient_spec (dUdX dUhatdX : mat3 R) :
  end_of_step_gradient dUdX dUhatdX = F_end dUdX dUhatdX.
Proof.
  munfold. r64. f_equal; lra.
Qed.

Lemma velocity_gradient_spec (dUdX dUhatdX : mat3 R) (dt : R) :
  velocity_gradient dUdX dUhatdX dt = L_spec dUdX dUhatdX dt.
Proof.
  unfold velocity_gradient, L_spec.
  rewrite midpoint_gradient_spec.
  generalize (Finverse (F_midpoint dUdX dUhatdX)); intro G.
  munfold. r64. unfold Rdiv. f_equal; ring.
Qed.

(** [Finverse] is the inverse wherever the determinant is not zero. *)
Lemma Finverse_right (F : mat3 R) :
  det F <> 0 -> mmul F (Finverse F) = midentity.
Proof.
  destruct F as [a b c d e f g h i].
  unfold Finverse, det. munfold. r64. intro Hd.
  f_equal; field; exact Hd.
Qed.

Lemma Finverse_left (F : mat3 R) :
  det F <> 0 -> mmul (Finverse F) F = midentity.
Proof.
  destruct F as [a b c d e f g h i].
  unfold Finverse, det. munfold. r64. intro Hd.
  f_equal; field; exact Hd.
Qed.


(** C2. For every element, quadrature point and nonzero time step, the
    velocity gradient [L] the monolithic kernels compute (object-of-arrays
    and array-of-objects alike) is [(dUhatdX / dt) . F^-1] with the midpoint
    gradient [F = I + dUdX + 0.5 dUhatdX]; [Finverse F] is the two-sided
    inverse of [F] wherever [det F] is not zero, and [L] is what
    [HughesWinget] receives.  The block is the same in every kernel, whatever
    gradients it is run on. *)
Theorem velocity_gradient_is_increment_rate_times_Finv
    (NODESPERELEM : nat) (E : element_data R) (dt : R) (k q : nat) :
  dt <> 0 ->
  (forall fl : ObjOfArr.fields,
     let dU := ObjOfArr.dUdX_at NODESPERELEM E fl k q in
     let dUh := ObjOfArr.dUhatdX_at NODESPERELEM E fl k q in
     let F := F_midpoint dU dUh in
     let kin := ObjOfArr.kinematics_at NODESPERELEM E fl dt k q in
     kin_L kin = mmul (mdiv dUh dt) (Finverse F)
     /\ (kin_Rot kin, kin_Dadt kin) = HughesWinget (kin_L kin) dt
     /\ (det F <> 0 ->
         mmul F (Finverse F) = midentity /\ mmul (Finverse F) F = midentity))
  /\
  (forall fl : ArrOfObj.fields,
     let dU := ArrOfObj.dUdX_at NODESPERELEM E fl k q in
     let dUh := ArrOfObj.dUhatdX_at NODESPERELEM E fl k q in
     let F := F_midpoint dU dUh in
     let kin := ArrOfObj.kinematics_at NODESPERELEM E fl dt k q in
     kin_L kin = mmul (mdiv dUh dt) (Finverse F)
     /\ (kin_Rot kin, kin_Dadt kin) = HughesWinget (kin_L kin) dt
     /\ (det F <> 0 ->
         mmul F (Finverse F) = midentity /\ mmul (Finverse F) F = midentity))
  /\
  (forall dU dUh : mat3 R,
     velocity_gradient dU dUh dt
     = mmul (mdiv dUh dt) (Finverse (F_midpoint dU dUh))).
Proof.
  intros _. split; [ | split ]; [ intros fl dU dUh F kin | intros fl dU dUh F kin
                                | intros dU dUh; apply velocity_gradient_spec ].
  - split; [ | split ].
    + apply velocity_gradient_spec.
    + subst kin. unfold ObjOfArr.kinematics_at, ObjOfArr.local_kinematics,
        point_kinematics. cbn [kin_Rot kin_Dadt kin_L].
      now destruct (HughesWinget _ dt).
    + intro Hd. split; [ now apply Finverse_right | now apply Finverse_left ].
  - split; [ | split ].
    + apply velocity_gradient_spec.
    + subst kin. unfold ArrOfObj.kinematics_at, ArrOfObj.local_kinematics,
        point_kinematics. cbn [kin_Rot kin_Dadt kin_L].
      now destruct (HughesWinget _ dt).
    + intro Hd. split; [ now apply Finverse_right | now apply Finverse_left ].
Qed.

(** The statement of C2 at a unit time step, on the element at rest. *)
Lemma velocity_gradient_is_increment_rate_times_Finv_witness :
  1%R <> 0%R
  /\ kin_L (ObjOfArr.kinematics_at 8 rest_data rest_fields 1%R 0 0)
     = mmul (mdiv (ObjOfArr.dUhatdX_at 8 rest_data rest_fields 0 0) 1%R)
         (Finverse (F_midpoint (ObjOfArr.dUdX_at 8 rest_data rest_fields 0 0)
                      (ObjOfArr.dUhatdX_at 8 rest_data rest_fields 0 0))).
Proof.
  split; [ lra | ].
  refine (proj1 (proj1 (@velocity_gradient_is_increment_rate_times_Finv 8
                          rest_data 1%R 0 0 _) rest_fields)).
  lra.
Defined.

Lemma F_end_differs_from_midpoint (dU dUh : mat3 R) :
  F_end dU dUh = F_midpoint dU dUh -> dUh = mzero.
Proof.
  destruct dU, dUh. munfold. r64. intro H.
  injection H; intros. f_equal; lra.
Qed.

(** C3. For every element and quadrature point, the determinant and the
    inverse that [ObjectOfArraysKernel] hands to [Integrate] are those of the
    end-of-step gradient [F_end = I + dUdX + dUhatdX]; that gradient is the
    midpoint gradient only when the increment gradient vanishes. *)
Theorem Integrate_receives_end_of_step_detF_and_Finv
    (NODESPERELEM : nat) (E : element_data R) (fl : ObjOfArr.fields) (dt : R)
    (updateState_ptr : constUpdate R) (k q : nat) (sf : stress_state R * xyz R) :
  let dU := ObjOfArr.dUdX_at NODESPERELEM E fl k q in
  let dUh := ObjOfArr.dUhatdX_at NODESPERELEM E fl k q in
  let kin := ObjOfArr.kinematics_at NODESPERELEM E fl dt k q in
  let out :=
    ObjOfArr.quadrature_body NODESPERELEM E fl dt updateState_ptr k
      (ObjOfArr.GlobalToLocal (ObjOfArr.nodeList NODESPERELEM E k) (ObjOfArr.iu fl))
      (ObjOfArr.GlobalToLocal (ObjOfArr.nodeList NODESPERELEM E k) (ObjOfArr.iuhat fl))
      sf q in
  kin_detF kin = det (F_end dU dUh)
  /\ kin_Finv kin = Finverse (F_end dU dUh)
  /\ snd out =
       ObjOfArr.Integrate NODESPERELEM (snd sf) (idetJ E k q)
         (det (F_end dU dUh)) (Finverse (F_end dU dUh))
         (TotalStress (fst out) k q (iconstitutiveMap E k q)) fl k q
  /\ (F_end dU dUh = F_midpoint dU dUh -> dUh = mzero).
Proof.
  intros dU dUh kin out.
  assert (Hd : kin_detF kin = det (F_end dU dUh)).
  { subst kin. unfold ObjOfArr.kinematics_at, ObjOfArr.local_kinematics,
      point_kinematics. cbn [kin_detF].
    now rewrite end_of_step_gradient_spec. }
  assert (Hi : kin_Finv kin = Finverse (F_end dU dUh)).
  { subst kin. unfold ObjOfArr.kinematics_at, ObjOfArr.local_kinematics,
      point_kinematics. cbn [kin_Finv].
    now rewrite end_of_step_gradient_spec. }
  repeat split; trivial.
  - subst out. unfold ObjOfArr.quadrature_body. cbn [fst snd].
    unfold kin, ObjOfArr.kinematics_at in Hd, Hi. now rewrite Hd, Hi.
  - apply F_end_differs_from_midpoint.
Qed.

(** The linear-elastic update of one point, entry by entry. *)
Lemma constitutive_body_mean (b : kinematic_buffers R) (E : element_data R)
    (k q : nat) (s : stress_state R) (m' : nat) :
  meanStress (constitutive_body b E k s q) m' =
    if m' =? iconstitutiveMap E k q
    then snd (linear_elastic_spec (mbuild (Dadt_ptr b k q)) (mbuild (Rot_ptr b k q))
                (ishearModulus E) (ibulkModulus E) (devStressData s k q)
                (meanStress s (iconstitutiveMap E k q)))
    else meanStress s m'.
Proof.
  unfold constitutive_body, linear_elastic_spec, upd. cbn [meanStress snd].
  destruct (m' =? iconstitutiveMap E k q); trivial.
Qed.

(** The two products of the rotation, in the specification's vocabulary. *)
Lemma AijBkj_AijBjk_rotation (Q S : mat3 R) :
  AijBkj (AijBjk Q S) Q = mmul (mmul Q S) (mtranspose Q).
Proof.
  destruct Q, S. munfold. reflexivity.
Qed.

Lemma deviatoric_increment (D : mat3 R) (G : R) (c : nat) :
  let vs := mget D 0 0 + mget D 1 1 + mget D 2 2 in
  lower6
    (mbuild (fun ty tx =>
       mget (mbuild (fun i j =>
               if (i =? j)%nat then mget D i j - vs / 3 else mget D i j)) ty tx
       * (2 * G))) c
  = lower6 (mscale (2 * G) (msub D (mscale (mtrace D / 3) midentity))) c.
Proof.
  destruct D. intro vs. subst vs.
  destruct c as [|[|[|[|[|[|c]]]]]]; unfold lower6; munfold; r64;
    unfold Rdiv; ring.
Qed.

Lemma constitutive_body_dev (b : kinematic_buffers R) (E : element_data R)
    (k q : nat) (s : stress_state R) (k' q' c : nat) :
  devStressData (constitutive_body b E k s q) k' q' c =
    if (k' =? k) && (q' =? q) && (c <? 6)
    then fst (linear_elastic_spec (mbuild (Dadt_ptr b k q)) (mbuild (Rot_ptr b k q))
                (ishearModulus E) (ibulkModulus E) (devStressData s k q)
                (meanStress s (iconstitutiveMap E k q))) c
    else devStressData s k' q' c.
Proof.
  unfold constitutive_body, linear_elastic_spec. cbn [devStressData fst].
  unfold store6 at 1.
  destruct ((k' =? k) && (q' =? q) && (c <? 6)) eqn:Hc.
  - rewrite AijBkj_AijBjk_rotation. r64.
    do 3 f_equal.
    unfold sym_tensor, store6. rewrite !Nat.eqb_refl.
    cbn [andb Nat.ltb Nat.leb].
    pose proof (deviatoric_increment (mbuild (Dadt_ptr b k q)) (ishearModulus E)) as Hi.
    cbv zeta in Hi. r64.
    f_equal; f_equal; apply Hi.
  - unfold store6. now rewrite Hc.
Qed.

(** C4. For every element and quadrature point, the linear-elastic update
    of [ConstitutiveUpdateKernel] does exactly this: the mean stress of the
    point's material index gains [trace(Dadt) * bulkModulus]; the six stored
    deviatoric components gain the matching entries of
    [2 * shearModulus * (Dadt - trace(Dadt)/3 * I)]; the tensor [S] they then
    represent is replaced by [Rot . S . Rot^T]; the mean stress is not
    rotated, and no other entry of either array changes. *)
Theorem constitutive_update_is_linear_elastic
    (b : kinematic_buffers R) (E : element_data R) (k q : nat) (s : stress_state R) :
  let Dadt := mbuild (Dadt_ptr b k q) in
  let Rot := mbuild (Rot_ptr b k q) in
  let m := iconstitutiveMap E k q in
  let tr := mtrace Dadt in
  let increment :=
    mscale (2 * ishearModulus E) (msub Dadt (mscale (tr / 3) midentity)) in
  let S := sym_tensor (fun c => devStressData s k q c + lower6 increment c) in
  let s' := constitutive_body b E k s q in
  (forall m', meanStress s' m' =
      if m' =? m then meanStress s m + tr * ibulkModulus E else meanStress s m')
  /\ (forall k' q' c, devStressData s' k' q' c =
        if (k' =? k) && (q' =? q) && (c <? 6)
        then lower6 (mmul (mmul Rot S) (mtranspose Rot)) c
        else devStressData s k' q' c).
Proof.
  intros Dadt Rot m tr increment S s'. split.
  - intro m'. subst s'. now rewrite constitutive_body_mean.
  - intros k' q' c. subst s'. now rewrite constitutive_body_dev.
Qed.

(** C5. For every element and quadrature point, the total stress assembled
    for [Integrate] is symmetric and is the recombination of the stored
    state: the six stored lower-triangular deviatoric components, mirrored
    into the upper triangle, with the mean stress added to each diagonal
    entry (in every arithmetic); in exact arithmetic it is
    [S + meanStress * I], from which the stored components are recovered by
    subtracting the mean stress again. *)
Theorem TotalStress_is_symmetric_recombination :
  (forall (T : Type) (RT : Real64 T) (s : stress_state T) (k q m : nat),
     TotalStress s k q m = recombine (devStressData s k q) (meanStress s m)
     /\ (forall i j, mget (TotalStress s k q m) i j = mget (TotalStress s k q m) j i))
  /\
  (forall (s : stress_state R) (k q m : nat),
     TotalStress s k q m =
       madd (sym_tensor (devStressData s k q)) (mscale (meanStress s m) midentity)
     /\ (forall c, (c < 6)%nat ->
           lower6 (msub (TotalStress s k q m) (mscale (meanStress s m) midentity)) c
           = devStressData s k q c)).
Proof.
  split.
  - intros T RT s k q m. split.
    + reflexivity.
    + intros i j. destruct i as [|[|i]], j as [|[|j]]; reflexivity.
  - intros s k q m. split.
    + unfold TotalStress, sym_tensor. munfold. r64. f_equal; ring.
    + intros c Hc. unfold TotalStress, sym_tensor.
      destruct c as [|[|[|[|[|[|c]]]]]]; try lia;
        unfold lower6; munfold; r64; ring.
Qed.

End ExactArithmetic.

(** * Which entries an update writes (in every arithmetic) *)

Section Frame.

Context {T : Type} {RT : Real64 T}.

Lemma fold_left_ext_in {A B : Type} (f g : A -> B -> A) (l : list B) :
  (forall a x, In x l -> f a x = g a x) ->
  forall a, fold_left f l a = fold_left g l a.
Proof.
  induction l as [|x l IH]; intros H a; cbn; trivial.
  rewrite H by now left.
  apply IH. intros; apply H; now right.
Qed.

Lemma NoDup_app_disjoint {A : Type} (l1 l2 : list A) (x : A) :
  NoDup (l1 ++ l2) -> In x l1 -> In x l2 -> False.
Proof.
  induction l1 as [|y l1 IH]; intros Hnd H1 H2; [ destruct H1 | ].
  cbn in Hnd. inversion Hnd as [|? ? Hy Hnd']; subst.
  destruct H1 as [->|H1].
  - apply Hy. apply in_or_app. now right.
  - now apply IH.
Qed.

Lemma mbuild_mget (A : mat3 T) : mbuild (mget A) = A.
Proof. now destruct A. Qed.

Lemma store6_other (dev : nat -> nat -> nat -> T) k q v k' q' c :
  (k', q') <> (k, q) -> store6 dev k q v k' q' c = dev k' q' c.
Proof.
  intro H. unfold store6.
  destruct (k' =? k) eqn:Hk; cbn; trivial.
  destruct (q' =? q) eqn:Hq; cbn; trivial.
  apply Nat.eqb_eq in Hk, Hq. now subst.
Qed.

Lemma UpdateStatePoint_dev_other (D Rt : mat3 T) m q k s G K k' q' c :
  (k', q') <> (k, q) ->
  devStressData (UpdateStatePoint D Rt m q k s G K) k' q' c = devStressData s k' q' c.
Proof.
  intro H. unfold UpdateStatePoint. cbn [devStressData].
  now rewrite !store6_other.
Qed.

Lemma UpdateStatePoint_mean_other (D Rt : mat3 T) m q k s G K m' :
  m' <> m ->
  meanStress (UpdateStatePoint D Rt m q k s G K) m' = meanStress s m'.
Proof.
  intro H. unfold UpdateStatePoint, upd. cbn [meanStress].
  apply Nat.eqb_neq in H. now rewrite H.
Qed.

Lemma UpdateStatePoint_mean_at (D Rt : mat3 T) m q k s G K :
  meanStress (UpdateStatePoint D Rt m q k s G K) m
  = r_add (meanStress s m) (r_mul (mtrace D) K).
Proof.
  unfold UpdateStatePoint, upd. cbn [meanStress].
  rewrite Nat.eqb_refl. now destruct D.
Qed.

Lemma constitutive_body_UpdateStatePoint (b : kinematic_buffers T)
    (E : element_data T) k s q :
  constitutive_body b E k s q =
  UpdateStatePoint (mbuild (Dadt_ptr b k q)) (mbuild (Rot_ptr b k q))
    (iconstitutiveMap E k q) q k s (ishearModulus E) (ibulkModulus E).
Proof. reflexivity. Qed.

Lemma TotalStress_ext (s s' : stress_state T) k q m :
  (forall c, devStressData s k q c = devStressData s' k q c) ->
  meanStress s m = meanStress s' m ->
  TotalStress s k q m = TotalStress s' k q m.
Proof.
  intros Hd Hm. unfold TotalStress, sym_tensor. now rewrite Hm, !Hd.
Qed.

Section Updates.

Variable NUMQUADPTS : nat.
Variable E : element_data T.
Variable kin : nat -> nat -> kinematics T.

Local Abbreviation cmap := (iconstitutiveMap E).

Lemma update_at_mean_other k s q m :
  m <> cmap k q -> meanStress (update_at E kin k s q) m = meanStress s m.
Proof. intro H. now apply UpdateStatePoint_mean_other. Qed.

Lemma update_at_dev_other k s q k' q' c :
  (k', q') <> (k, q) ->
  devStressData (update_at E kin k s q) k' q' c = devStressData s k' q' c.
Proof. intro H. now apply UpdateStatePoint_dev_other. Qed.

Lemma update_fold_mean_other k qs : forall s m,
  ~ In m (map (cmap k) qs) ->
  meanStress (fold_left (update_at E kin k) qs s) m = meanStress s m.
Proof.
  induction qs as [|q qs IH]; intros s m H; cbn; trivial.
  rewrite IH by (intro; apply H; now right).
  apply update_at_mean_other. intro; apply H; left; now subst.
Qed.

Lemma update_fold_dev_other k qs : forall s k' q' c,
  (k' <> k \/ ~ In q' qs) ->
  devStressData (fold_left (update_at E kin k) qs s) k' q' c = devStressData s k' q' c.
Proof.
  induction qs as [|q qs IH]; intros s k' q' c H; cbn; trivial.
  rewrite IH by (destruct H; [ now left | right; intro; apply H; now right ]).
  apply update_at_dev_other. intro Heq; inversion Heq; subst.
  destruct H as [H|H]; [ now apply H | apply H; now left ].
Qed.

(** The total stress of a point is not changed by the updates of points
    whose material index differs from its own. *)
Lemma update_fold_TotalStress k' qs s k q :
  ~ In (cmap k q) (map (cmap k') qs) ->
  TotalStress (fold_left (update_at E kin k') qs s) k q (cmap k q)
  = TotalStress s k q (cmap k q).
Proof.
  intro H. apply TotalStress_ext.
  - intro c. apply update_fold_dev_other.
    destruct (Nat.eq_dec k k') as [->|Hk]; [ right | now left ].
    intro Hq. apply H. now apply in_map.
  - now apply update_fold_mean_other.
Qed.

Lemma update_elements_TotalStress ks : forall s k q,
  ~ In (cmap k q) (material_indices NUMQUADPTS E ks) ->
  TotalStress (update_elements NUMQUADPTS E kin ks s) k q (cmap k q)
  = TotalStress s k q (cmap k q).
Proof.
  induction ks as [|k' ks IH]; intros s k q H; cbn; trivial.
  cbn in H. rewrite in_app_iff in H.
  unfold update_elements in *. rewrite IH by tauto.
  unfold update_element. apply update_fold_TotalStress. tauto.
Qed.

Lemma update_elements_mean_other ks : forall s m,
  ~ In m (material_indices NUMQUADPTS E ks) ->
  meanStress (update_elements NUMQUADPTS E kin ks s) m = meanStress s m.
Proof.
  induction ks as [|k' ks IH]; intros s m H; cbn; trivial.
  cbn in H. rewrite in_app_iff in H.
  unfold update_elements in *. rewrite IH by tauto.
  unfold update_element. apply update_fold_mean_other. tauto.
Qed.

(** With pairwise distinct material indices in the element, the mean stress
    of each of its points has gained exactly its own increment. *)
Lemma update_fold_mean_at k qs : forall s q,
  NoDup (map (cmap k) qs) -> In q qs ->
  meanStress (fold_left (update_at E kin k) qs s) (cmap k q)
  = r_add (meanStress s (cmap k q))
          (r_mul (mtrace (kin_Dadt (kin k q))) (ibulkModulus E)).
Proof.
  induction qs as [|q0 qs IH]; intros s q Hnd Hin; [ destruct Hin | ].
  cbn in Hnd. inversion Hnd as [|? ? Hnotin Hnd']; subst.
  cbn [fold_left]. destruct Hin as [->|Hin].
  - rewrite update_fold_mean_other by assumption.
    apply UpdateStatePoint_mean_at.
  - rewrite IH by assumption.
    rewrite update_at_mean_other; trivial.
    intro Heq. apply Hnotin. rewrite <- Heq. now apply in_map.
Qed.

(** With pairwise distinct material indices over the whole run, the same
    holds for every point of every element of the run. *)
Lemma update_elements_mean_at ks : forall s k q,
  NoDup (material_indices NUMQUADPTS E ks) ->
  In k ks -> In q (seq 0 NUMQUADPTS) ->
  meanStress (update_elements NUMQUADPTS E kin ks s) (cmap k q)
  = r_add (meanStress s (cmap k q))
          (r_mul (mtrace (kin_Dadt (kin k q))) (ibulkModulus E)).
Proof.
  induction ks as [|k0 ks IH]; intros s k q Hnd Hk Hq; [ destruct Hk | ].
  cbn in Hnd.
  change (update_elements NUMQUADPTS E kin (k0 :: ks) s)
    with (update_elements NUMQUADPTS E kin ks (update_element NUMQUADPTS E kin s k0)).
  assert (Hin : forall k', In k' ks ->
            In (cmap k' q) (material_indices NUMQUADPTS E ks)).
  { intros k' Hk'. unfold material_indices. apply in_flat_map.
    exists k'. split; trivial. now apply in_map. }
  destruct (in_dec Nat.eq_dec k ks) as [Hks|Hks].
  - rewrite IH; trivial; [ | now apply NoDup_app_remove_l in Hnd ].
    unfold update_element. rewrite update_fold_mean_other; trivial.
    intro H1. exact (NoDup_app_disjoint _ _ _ Hnd H1 (Hin k Hks)).
  - destruct Hk as [->|Hk]; [ | contradiction ].
    rewrite update_elements_mean_other.
    + unfold update_element. apply update_fold_mean_at; trivial.
      now apply NoDup_app_remove_r in Hnd.
    + intro H2.
      assert (H1 : In (cmap k q) (map (cmap k) (seq 0 NUMQUADPTS)))
        by exact (in_map (cmap k) _ _ Hq).
      exact (NoDup_app_disjoint _ _ _ Hnd H1 H2).
Qed.

End Updates.

End Frame.

(** * The split kernels against the monolithic kernel (array of objects) *)

Section SplitAgainstMonolithic.

Context {T : Type} {RT : Real64 T}.
Variable NODESPERELEM : nat.
Variable NUMQUADPTS : nat.
Variable E : element_data T.
Variable fl : ArrOfObj.fields (T := T).
Variable dt : T.

Local Abbreviation cmap := (iconstitutiveMap E).
Local Abbreviation kin := (ArrOfObj.kinematics_at NODESPERELEM E fl dt).
Local Abbreviation u_local :=
  (ArrOfObj.GlobalToLocal (ArrOfObj.nodeList NODESPERELEM E) (ArrOfObj.iu fl)).
Local Abbreviation body k :=
  (ArrOfObj.quadrature_body NODESPERELEM E fl dt (@UpdateStatePoint T RT) k
     (ArrOfObj.GlobalToLocal (ArrOfObj.nodeList NODESPERELEM E k) (ArrOfObj.iu fl))
     (ArrOfObj.GlobalToLocal (ArrOfObj.nodeList NODESPERELEM E k) (ArrOfObj.iuhat fl))).
(** The integration of point [(k,q)] with the stress read from [S]. *)
Local Abbreviation integ S k :=
  (fun f q =>
     ArrOfObj.Integrate NODESPERELEM f (idetJ E k q) (kin_detF (kin k q))
       (kin_Finv (kin k q)) (TotalStress S k q (cmap k q)) fl k q).

Lemma quadrature_fold_fst k qs : forall s f,
  fst (fold_left (body k) qs (s, f)) = fold_left (update_at E kin k) qs s.
Proof.
  induction qs as [|q qs IH]; intros s f; cbn [fold_left]; trivial.
  unfold ArrOfObj.quadrature_body at 2. cbn [fst snd]. now rewrite IH.
Qed.

(** When the points of the loop have pairwise distinct material indices, the
    stress each point integrates is the stress at the end of the loop. *)
Lemma quadrature_fold_split k qs : forall s f,
  NoDup (map (cmap k) qs) ->
  fold_left (body k) qs (s, f)
  = (fold_left (update_at E kin k) qs s,
     fold_left (integ (fold_left (update_at E kin k) qs s) k) qs f).
Proof.
  induction qs as [|q qs IH]; intros s f Hnd; cbn [fold_left]; trivial.
  cbn in Hnd. inversion Hnd as [|? ? Hnotin Hnd']; subst.
  unfold ArrOfObj.quadrature_body at 2. cbn [fst snd].
  rewrite IH by assumption. f_equal. f_equal. f_equal.
  symmetry. now apply update_fold_TotalStress.
Qed.

Lemma monolithic_fst ks : forall s acc,
  fst (fold_left (ArrOfObj.element_body NODESPERELEM NUMQUADPTS E fl dt
                    (@UpdateStatePoint T RT)) ks (s, acc))
  = update_elements NUMQUADPTS E kin ks s.
Proof.
  induction ks as [|k ks IH]; intros s acc; cbn [fold_left]; trivial.
  unfold ArrOfObj.element_body at 2. cbn [fst snd].
  rewrite IH. unfold ArrOfObj.quadrature_loop. now rewrite quadrature_fold_fst.
Qed.

(** The force accumulation of the integration kernel, with the stress read
    from [S] and the kinematic locals recomputed. *)
Local Abbreviation integrate_all S :=
  (fun acc k =>
     ArrOfObj.AddLocalToGlobal NODESPERELEM (ArrOfObj.nodeList NODESPERELEM E k)
       (fold_left (integ S k) (seq 0 NUMQUADPTS) (@ArrOfObj.f_local_zero T RT)) acc).

Lemma monolithic_split ks : forall s acc,
  NoDup (material_indices NUMQUADPTS E ks) ->
  fold_left (ArrOfObj.element_body NODESPERELEM NUMQUADPTS E fl dt
               (@UpdateStatePoint T RT)) ks (s, acc)
  = (update_elements NUMQUADPTS E kin ks s,
     fold_left (integrate_all (update_elements NUMQUADPTS E kin ks s)) ks acc).
Proof.
  induction ks as [|k ks IH]; intros s acc Hnd; cbn [fold_left]; trivial.
  cbn in Hnd. apply NoDup_app_remove_l in Hnd as Hnd'.
  unfold ArrOfObj.element_body at 2. cbn [fst snd].
  unfold ArrOfObj.quadrature_loop.
  assert (Hk : NoDup (map (cmap k) (seq 0 NUMQUADPTS))).
  { now apply NoDup_app_remove_r in Hnd. }
  rewrite quadrature_fold_split by assumption. cbn [fst snd].
  rewrite IH by assumption.
  set (S1 := fold_left (update_at E kin k) (seq 0 NUMQUADPTS) s).
  change (update_elements NUMQUADPTS E kin (k :: ks) s)
    with (update_elements NUMQUADPTS E kin ks S1).
  f_equal. f_equal. f_equal.
  apply fold_left_ext_in. intros f q Hq. f_equal.
  symmetry.
  apply update_elements_TotalStress.
  intro Hin.
  assert (Hin1 : In (cmap k q) (map (cmap k) (seq 0 NUMQUADPTS)))
    by exact (in_map (cmap k) _ _ Hq).
  exact (NoDup_app_disjoint _ _ _ Hnd Hin1 Hin).
Qed.

Local Abbreviation holds := (buffers_hold NODESPERELEM E fl dt).

Lemma store_mat_same (P : nat -> nat -> nat -> nat -> T) k q (A : mat3 T) :
  mbuild (store_mat P k q A k q) = A.
Proof.
  destruct A. unfold mbuild, store_mat. rewrite !Nat.eqb_refl. reflexivity.
Qed.

Lemma store_mat_other (P : nat -> nat -> nat -> nat -> T) k q (A : mat3 T) k' q' :
  (k', q') <> (k, q) ->
  mbuild (store_mat P k q A k' q') = mbuild (P k' q').
Proof.
  intro H. unfold mbuild, store_mat.
  assert (Hb : (k' =? k) && (q' =? q) = false).
  { destruct (k' =? k) eqn:Hk; cbn; trivial.
    destruct (q' =? q) eqn:Hq; cbn; trivial.
    apply Nat.eqb_eq in Hk, Hq. now subst. }
  rewrite Hb. reflexivity.
Qed.

Lemma write_holds k q (b : kinematic_buffers T) k' q' :
  (k', q') = (k, q) \/ holds b k' q' ->
  holds (write_kinematics b k q (kin k q)) k' q'.
Proof.
  intro H.
  destruct (Nat.eq_dec k' k) as [->|Hk].
  - destruct (Nat.eq_dec q' q) as [->|Hq].
    + unfold buffers_hold, write_kinematics.
      cbn [Dadt_ptr Rot_ptr detF_ptr Finv_ptr].
      rewrite !store_mat_same. unfold store2. rewrite !Nat.eqb_refl.
      cbn. tauto.
    + destruct H as [H|H]; [ inversion H; contradiction | ].
      assert (Hne : (k, q') <> (k, q)) by (intro X; inversion X; contradiction).
      unfold buffers_hold, write_kinematics in *.
      cbn [Dadt_ptr Rot_ptr detF_ptr Finv_ptr].
      rewrite !store_mat_other by assumption. unfold store2.
      apply Nat.eqb_neq in Hq. rewrite Hq, andb_false_r. exact H.
  - destruct H as [H|H]; [ inversion H; contradiction | ].
    assert (Hne : (k', q') <> (k, q)) by (intro X; inversion X; contradiction).
    unfold buffers_hold, write_kinematics in *.
    cbn [Dadt_ptr Rot_ptr detF_ptr Finv_ptr].
    rewrite !store_mat_other by assumption. unfold store2.
    apply Nat.eqb_neq in Hk. rewrite Hk. exact H.
Qed.

Lemma kinematic_element_holds k qs : forall b k' q',
  (k' = k /\ In q' qs) \/ holds b k' q' ->
  holds
    (fold_left
       (fun b q =>
          write_kinematics b k q
            (ArrOfObj.local_kinematics NODESPERELEM
               (ArrOfObj.GlobalToLocal (ArrOfObj.nodeList NODESPERELEM E k) (ArrOfObj.iu fl))
               (ArrOfObj.GlobalToLocal (ArrOfObj.nodeList NODESPERELEM E k) (ArrOfObj.iuhat fl))
               fl dt k q))
       qs b) k' q'.
Proof.
  induction qs as [|q qs IH]; intros b k' q' H; cbn [fold_left].
  - destruct H as [[_ []]|H]; exact H.
  - apply IH.
    destruct H as [[-> [->|Hin]]|H].
    + right. apply write_holds. now left.
    + left. now split.
    + right. apply write_holds. now right.
Qed.

Lemma kinematic_kernel_holds ks : forall b k q,
  (In k ks /\ In q (seq 0 NUMQUADPTS)) \/ holds b k q ->
  holds (fold_left (ArrOfObj.kinematic_element NODESPERELEM NUMQUADPTS E fl dt) ks b) k q.
Proof.
  induction ks as [|k0 ks IH]; intros b k q H; cbn [fold_left].
  - destruct H as [[[] _]|H]; exact H.
  - apply IH.
    destruct H as [[[->|Hin] Hq]|H].
    + right. apply kinematic_element_holds. left. now split.
    + left. now split.
    + right. apply kinematic_element_holds. now right.
Qed.

Lemma constitutive_body_update_at b k s q :
  holds b k q -> constitutive_body b E k s q = update_at E kin k s q.
Proof.
  intros (Hd & Hr & _ & _).
  rewrite constitutive_body_UpdateStatePoint. unfold update_at.
  now rewrite Hd, Hr.
Qed.

Lemma constitutive_kernel_updates b ks : forall s,
  (forall k q, In k ks -> In q (seq 0 NUMQUADPTS) -> holds b k q) ->
  fold_left (fun s k => fold_left (constitutive_body b E k) (seq 0 NUMQUADPTS) s) ks s
  = update_elements NUMQUADPTS E kin ks s.
Proof.
  intros s H. unfold update_elements.
  apply fold_left_ext_in. intros s' k Hk. unfold update_element.
  apply fold_left_ext_in. intros s'' q Hq.
  apply constitutive_body_update_at. now apply H.
Qed.

Lemma integration_kernel_integrates b S ks : forall acc,
  (forall k q, In k ks -> In q (seq 0 NUMQUADPTS) -> holds b k q) ->
  fold_left
    (fun acc k =>
       ArrOfObj.AddLocalToGlobal NODESPERELEM (ArrOfObj.nodeList NODESPERELEM E k)
         (fold_left (ArrOfObj.integration_body NODESPERELEM E fl b S k)
            (seq 0 NUMQUADPTS) (@ArrOfObj.f_local_zero T RT)) acc)
    ks acc
  = fold_left (integrate_all S) ks acc.
Proof.
  intros acc H.
  apply fold_left_ext_in. intros acc' k Hk. f_equal.
  apply fold_left_ext_in. intros f q Hq.
  destruct (H k q Hk Hq) as (_ & _ & Hd & Hf).
  unfold ArrOfObj.integration_body, ArrOfObj.Integrate_stored.
  change (mbuild (fun r c => Finv_ptr b k q r c)) with (mbuild (Finv_ptr b k q)).
  now rewrite Hd, Hf.
Qed.

End SplitAgainstMonolithic.

(** C7 (as amended). The three split kernels in sequence leave the stress
    arrays exactly as one run of [ArrayOfObjectsKernel] with the
    linear-elastic update does, for every input and in every arithmetic; they
    leave the nodal force/acceleration array exactly as it does whenever the
    quadrature points visited have pairwise distinct material-instance
    indices. *)
Theorem split_kernels_match_monolithic
    (T : Type) (RT : Real64 T) (NODESPERELEM NUMQUADPTS noElem : nat)
    (elemList : list nat) (dt : T) (E : element_data T) (fl : ArrOfObj.fields)
    (b : kinematic_buffers T) (sa : stress_state T * (nat -> nat -> T)) :
  let mono :=
    ArrOfObj.ArrayOfObjectsKernel NODESPERELEM NUMQUADPTS noElem elemList dt E fl
      (@UpdateStatePoint T RT) sa in
  let split :=
    ArrOfObj.split_phase NODESPERELEM NUMQUADPTS noElem elemList dt E fl b sa in
  fst split = fst mono
  /\ (NoDup (material_indices NUMQUADPTS E (firstn noElem elemList)) ->
      snd split = snd mono).
Proof.
  intros mono split. destruct sa as [s acc].
  set (ks := firstn noElem elemList).
  set (b' := ArrOfObj.ArrayOfObjects_KinematicKernel NODESPERELEM NUMQUADPTS
               noElem elemList dt E fl b).
  assert (Hb : forall k q, In k ks -> In q (seq 0 NUMQUADPTS) ->
                 buffers_hold NODESPERELEM E fl dt b' k q).
  { intros k q Hk Hq. apply kinematic_kernel_holds. left. now split. }
  assert (Hs : fst split =
               update_elements NUMQUADPTS E
                 (ArrOfObj.kinematics_at NODESPERELEM E fl dt) ks s).
  { subst split. unfold ArrOfObj.split_phase. cbn [fst snd].
    unfold ConstitutiveUpdateKernel. fold ks. fold b'.
    now apply constitutive_kernel_updates. }
  split.
  - rewrite Hs. subst mono. unfold ArrOfObj.ArrayOfObjectsKernel. fold ks.
    symmetry. apply monolithic_fst.
  - intro Hnd. subst mono. unfold ArrOfObj.ArrayOfObjectsKernel. fold ks.
    rewrite monolithic_split by exact Hnd. cbn [snd].
    rewrite <- Hs.
    subst split. unfold ArrOfObj.split_phase. cbn [fst snd].
    unfold ArrOfObj.ArrayOfObjects_IntegrationKernel. fold ks. fold b'.
    now apply integration_kernel_integrates.
Qed.

(** C7 (counterexample).  One element whose eight quadrature points share
    material index 0, zero initial stress: the monolithic kernel integrates
    point [q] with the mean stress after [q+1] updates, the integration
    kernel with the mean stress after all eight; the x force on node 0 is
    280 from the one and 448 from the other. *)
Lemma split_differs_from_monolithic_on_shared_index :
  ~ split_equals_monolithic 8 8 1 [0] 1%float shared_index_data stretch_fields
      zero_buffers (zero_stress, zero_acc).
Proof.
  intros (_ & _ & H).
  specialize (H 0 0).
  apply (f_equal (fun x => PrimFloat.eqb x 280)) in H.
  vm_compute in H. discriminate H.
Qed.

(** The sixteen points of elements 0 and 1 have the material indices 0 to 15. *)
Lemma NoDup_distinct_indices :
  NoDup (material_indices 8 distinct_index_data (firstn 2 [0; 1])).
Proof.
  vm_compute.
  repeat (constructor;
          [ cbn; intro H; repeat (destruct H as [H|H]; [ discriminate H | ]); exact H | ]).
  constructor.
Qed.

(** The statement of C7 on two elements whose sixteen quadrature points have
    the material indices 0 to 15. *)
Lemma split_kernels_match_monolithic_witness :
  snd (ArrOfObj.split_phase 8 8 2 [0; 1] 1%float distinct_index_data stretch_fields
         zero_buffers (zero_stress, zero_acc))
  = snd (ArrOfObj.ArrayOfObjectsKernel 8 8 2 [0; 1] 1%float distinct_index_data
           stretch_fields (@UpdateStatePoint float _) (zero_stress, zero_acc)).
Proof.
  apply (proj2 (@split_kernels_match_monolithic float _ 8 8 2 [0; 1] 1%float
                  distinct_index_data stretch_fields zero_buffers
                  (zero_stress, zero_acc))).
  exact NoDup_distinct_indices.
Defined.

(** C6 (counterexample).  With every point mapped to material index 0, the
    update of point [(0,0)] with [Dadt = I] and unit bulk modulus raises
    [imeanStress[0]] from 0 to 3, and that entry is the mean stress of point
    [(0,1)] as well. *)
Lemma shared_index_shares_mean_stress :
  ~ per_point_state_distinct unit_strain_buffers shared_index_data zero_stress.
Proof.
  intro H.
  destruct (H 0 0 0 1 ltac:(discriminate)) as [_ Hm].
  apply (f_equal (fun x => PrimFloat.eqb x 0)) in Hm.
  vm_compute in Hm. discriminate Hm.
Qed.

(** C6 (as amended).  The update of point [(k,q)], in
    [ConstitutiveUpdateKernel] and in [ObjectOfArraysKernel] alike, writes
    the deviatoric components of no other point, and of the mean stresses
    only the entry of its material index [m], which it increments; the state
    of another point is therefore untouched exactly when that point is
    mapped to a different material index. *)
Theorem update_writes_own_deviator_and_shared_mean
    (T : Type) (RT : Real64 T) (NODESPERELEM : nat)
    (b : kinematic_buffers T) (E : element_data T) (fl : ObjOfArr.fields) (dt : T)
    (f : xyz T) (s : stress_state T) (k q k' q' : nat) :
  (k', q') <> (k, q) ->
  let m := iconstitutiveMap E k q in
  let m' := iconstitutiveMap E k' q' in
  let s1 := constitutive_body b E k s q in
  let s2 :=
    fst (ObjOfArr.quadrature_body NODESPERELEM E fl dt (@UpdateStatePoint T RT) k
           (ObjOfArr.GlobalToLocal (ObjOfArr.nodeList NODESPERELEM E k) (ObjOfArr.iu fl))
           (ObjOfArr.GlobalToLocal (ObjOfArr.nodeList NODESPERELEM E k) (ObjOfArr.iuhat fl))
           (s, f) q) in
  ((forall c, devStressData s1 k' q' c = devStressData s k' q' c)
   /\ (m' <> m -> meanStress s1 m' = meanStress s m')
   /\ meanStress s1 m
      = r_add (meanStress s m)
              (r_mul (mtrace (mbuild (Dadt_ptr b k q))) (ibulkModulus E)))
  /\
  ((forall c, devStressData s2 k' q' c = devStressData s k' q' c)
   /\ (m' <> m -> meanStress s2 m' = meanStress s m')
   /\ meanStress s2 m
      = r_add (meanStress s m)
              (r_mul (mtrace (kin_Dadt (ObjOfArr.kinematics_at NODESPERELEM E fl dt k q)))
                     (ibulkModulus E))).
Proof.
  intros Hne m m' s1 s2. split.
  - subst s1. rewrite constitutive_body_UpdateStatePoint.
    repeat split.
    + intro c. now apply UpdateStatePoint_dev_other.
    + intro Hm. now apply UpdateStatePoint_mean_other.
    + apply UpdateStatePoint_mean_at.
  - subst s2. unfold ObjOfArr.quadrature_body. cbn [fst snd].
    repeat split.
    + intro c. now apply UpdateStatePoint_dev_other.
    + intro Hm. now apply UpdateStatePoint_mean_other.
    + apply UpdateStatePoint_mean_at.
Qed.

(** The statement of C6 on points (0,0) and (0,1), mapped to the material
    indices 0 and 1. *)
Lemma update_writes_own_deviator_and_shared_mean_witness :
  (forall c,
     devStressData (constitutive_body unit_strain_buffers distinct_index_data 0
                      zero_stress 0) 0 1 c
     = devStressData zero_stress 0 1 c)
  /\ meanStress (constitutive_body unit_strain_buffers distinct_index_data 0
                   zero_stress 0) 1
     = meanStress zero_stress 1.
Proof.
  pose proof (@update_writes_own_deviator_and_shared_mean float _ 8
                unit_strain_buffers distinct_index_data inverted_fields 1%float
                zero_xyz zero_stress 0 0 0 1 ltac:(discriminate)) as H.
  cbv zeta in H. destruct H as [(Hd & Hm & _) _].
  split; [ exact Hd | apply Hm; discriminate ].
Defined.

(** * The object-of-arrays kernel on any element, inverted or not *)

Section ObjectOfArraysRun.

Context {T : Type} {RT : Real64 T}.
Variable NODESPERELEM : nat.
Variable NUMQUADPTS : nat.
Variable E : element_data T.
Variable fl : ObjOfArr.fields (T := T).
Variable dt : T.

Local Abbreviation kinO := (ObjOfArr.kinematics_at NODESPERELEM E fl dt).

Lemma OoA_quadrature_fold_fst (upd_ptr := @UpdateStatePoint T RT) k qs : forall s f,
  fst (fold_left
         (ObjOfArr.quadrature_body NODESPERELEM E fl dt upd_ptr k
            (ObjOfArr.GlobalToLocal (ObjOfArr.nodeList NODESPERELEM E k) (ObjOfArr.iu fl))
            (ObjOfArr.GlobalToLocal (ObjOfArr.nodeList NODESPERELEM E k) (ObjOfArr.iuhat fl)))
         qs (s, f))
  = fold_left (update_at E kinO k) qs s.
Proof.
  induction qs as [|q qs IH]; intros s f; cbn [fold_left]; trivial.
  unfold ObjOfArr.quadrature_body at 2. cbn [fst snd]. now rewrite IH.
Qed.

Lemma OoA_monolithic_fst ks : forall s acc,
  fst (fold_left (ObjOfArr.element_body NODESPERELEM NUMQUADPTS E fl dt
                    (@UpdateStatePoint T RT)) ks (s, acc))
  = update_elements NUMQUADPTS E kinO ks s.
Proof.
  induction ks as [|k ks IH]; intros s acc; cbn [fold_left]; trivial.
  unfold ObjOfArr.element_body at 2. cbn [fst snd].
  rewrite IH. unfold ObjOfArr.quadrature_loop.
  now rewrite OoA_quadrature_fold_fst.
Qed.

End ObjectOfArraysRun.

(** C1 (counterexample).  The element of [inverted_fields] has
    [detF = -1] at every quadrature point, and [ObjectOfArraysKernel] still
    updates its stress (the mean stress of point [(0,0)] goes from 0 to
    [-1.5]) and adds its force into the nodal array (the x entry of node 0
    goes from 0 to [-28]). *)
Lemma inverted_element_is_updated_and_integrated :
  ~ inverted_element_untouched 8 8 1%float distinct_index_data inverted_fields
      (zero_stress, zero_xyz) 0.
Proof.
  intro H.
  destruct H as (_ & Hm & _).
  - exists 0. split; [ lia | vm_compute; reflexivity ].
  - specialize (Hm 0 ltac:(lia)).
    apply (f_equal (fun x => PrimFloat.eqb x 0)) in Hm.
    vm_compute in Hm. discriminate Hm.
Qed.

(** C1 (as amended).  [ObjectOfArraysKernel] tests no determinant and has no
    failure path: for every element of a run, inverted or not, every
    quadrature point's constitutive update is applied (with the
    linear-elastic update and pairwise distinct material indices over the
    run, the mean stress of each point gains [trace(Dadt) * bulkModulus]),
    and the lambda of every element ends by adding the force it integrated
    into the nodal arrays. *)
Theorem kernel_updates_and_integrates_every_element
    (T : Type) (RT : Real64 T) (NODESPERELEM NUMQUADPTS noElem : nat)
    (elemList : list nat) (dt : T) (E : element_data T) (fl : ObjOfArr.fields)
    (sa : stress_state T * xyz T) (k q : nat) :
  In k (firstn noElem elemList) ->
  q < NUMQUADPTS ->
  NoDup (material_indices NUMQUADPTS E (firstn noElem elemList)) ->
  let out :=
    ObjOfArr.ObjectOfArraysKernel NODESPERELEM NUMQUADPTS noElem elemList dt E fl
      (@UpdateStatePoint T RT) sa in
  let kin := ObjOfArr.kinematics_at NODESPERELEM E fl dt k q in
  meanStress (fst out) (iconstitutiveMap E k q)
  = r_add (meanStress (fst sa) (iconstitutiveMap E k q))
          (r_mul (mtrace (kin_Dadt kin)) (ibulkModulus E))
  /\ (forall sa' : stress_state T * xyz T,
        snd (ObjOfArr.element_body NODESPERELEM NUMQUADPTS E fl dt
               (@UpdateStatePoint T RT) sa' k)
        = ObjOfArr.AddLocalToGlobal NODESPERELEM (ObjOfArr.nodeList NODESPERELEM E k)
            (snd (ObjOfArr.quadrature_loop NODESPERELEM NUMQUADPTS E fl dt
                    (@UpdateStatePoint T RT) k (fst sa')))
            (snd sa')).
Proof.
  intros Hk Hq Hnd out kin. split; [ | reflexivity ].
  subst out. unfold ObjOfArr.ObjectOfArraysKernel.
  destruct sa as [s acc]. rewrite OoA_monolithic_fst. cbn [fst].
  apply update_elements_mean_at; trivial.
  apply in_seq. lia.
Qed.

(** The eight points of element 0 have the material indices 0 to 7. *)
Lemma NoDup_distinct_indices_element :
  NoDup (material_indices 8 distinct_index_data (firstn 1 [0])).
Proof.
  vm_compute.
  repeat (constructor;
          [ cbn; intro H; repeat (destruct H as [H|H]; [ discriminate H | ]); exact H | ]).
  constructor.
Qed.

(** The statement of C1 on the inverted element: its determinant is
    negative and the mean stress of its first point is updated all the same. *)
Lemma kernel_updates_and_integrates_every_element_witness :
  PrimFloat.leb
    (kin_detF (ObjOfArr.kinematics_at 8 distinct_index_data inverted_fields 1%float 0 0))
    0 = true
  /\ meanStress
       (fst (ObjOfArr.ObjectOfArraysKernel 8 8 1 [0] 1%float distinct_index_data
               inverted_fields (@UpdateStatePoint float _) (zero_stress, zero_xyz)))
       (iconstitutiveMap distinct_index_data 0 0)
     = r_add (meanStress zero_stress (iconstitutiveMap distinct_index_data 0 0))
         (r_mul
            (mtrace (kin_Dadt (ObjOfArr.kinematics_at 8 distinct_index_data
                                 inverted_fields 1%float 0 0)))
            (ibulkModulus distinct_index_data)).
Proof.
  split; [ vm_compute; reflexivity | ].
  apply (@kernel_updates_and_integrates_every_element float _ 8 8 1 [0] 1%float
           distinct_index_data inverted_fields (zero_stress, zero_xyz) 0 0).
  - now left.
  - lia.
  - exact NoDup_distinct_indices_element.
Defined.

Section ZeroDisplacement.

Local Open Scope R_scope.

Lemma det_identity : det (midentity (T := R)) = 1.
Proof. unfold det. munfold. r64. ring. Qed.

Lemma Finverse_identity : Finverse (midentity (T := R)) = midentity.
Proof.
  unfold Finverse. rewrite det_identity. munfold. r64.
  f_equal; field.
Qed.

Lemma point_kinematics_zero (dt : R) :
  point_kinematics mzero mzero dt = Kin mzero 1 midentity midentity mzero.
Proof.
  unfold point_kinematics.
  assert (Hm : midpoint_gradient (T := R) mzero mzero = midentity).
  { munfold. r64. f_equal; lra. }
  assert (He : end_of_step_gradient (T := R) mzero mzero = midentity).
  { munfold. r64. f_equal; lra. }
  assert (HL : velocity_gradient mzero mzero dt = mzero).
  { unfold velocity_gradient. rewrite Hm, Finverse_identity.
    munfold. r64. f_equal; ring. }
  rewrite HL, He, det_identity, Finverse_identity.
  unfold HughesWinget.
  match goal with
  | |- context [Finverse ?A] =>
      assert (HI : A = midentity) by (munfold; r64; f_equal; ring)
  end.
  rewrite HI, Finverse_identity. cbn [fst snd].
  f_equal; munfold; r64; f_equal; ring.
Qed.

Lemma OoA_gradient_of_zero (NODESPERELEM : nat) (u : xyz R)
    (fl : ObjOfArr.fields) (k q : nat) :
  (forall a, (a < NODESPERELEM)%nat ->
     arr_x u a = 0 /\ arr_y u a = 0 /\ arr_z u a = 0) ->
  ObjOfArr.CalculateGradient NODESPERELEM mzero u fl k q = mzero.
Proof.
  intro H. unfold ObjOfArr.CalculateGradient.
  assert (Hl : forall a, In a (seq 0 NODESPERELEM) -> (a < NODESPERELEM)%nat)
    by (intros a Ha; apply in_seq in Ha; lia).
  revert Hl. generalize (seq 0 NODESPERELEM). intro l.
  induction l as [|a l IH]; intro Hl; cbn [fold_left]; trivial.
  destruct (H a (Hl a (or_introl eq_refl))) as (Hx & Hy & Hz).
  match goal with
  | |- fold_left _ _ ?A = _ => assert (HA : A = mzero)
  end.
  { munfold. unfold comp3. rewrite Hx, Hy, Hz. r64. f_equal; ring. }
  rewrite HA. apply IH. intros; apply Hl; now right.
Qed.

Lemma UpdateStatePoint_at_rest (m q k : nat) (s : stress_state R) (G K : R) :
  let s' := UpdateStatePoint mzero midentity m q k s G K in
  (forall k' q' c, devStressData s' k' q' c = devStressData s k' q' c)
  /\ (forall m', meanStress s' m' = meanStress s m').
Proof.
  intro s'. subst s'. unfold UpdateStatePoint. cbn [devStressData meanStress].
  split.
  - intros k' q' c. unfold store6 at 1.
    destruct ((k' =? k)%nat && (q' =? q)%nat && (c <? 6)%nat) eqn:Hc.
    + apply andb_prop in Hc as [Hc Hc6]. apply andb_prop in Hc as [Hk Hq].
      apply Nat.eqb_eq in Hk, Hq. subst k' q'.
      unfold sym_tensor, store6. rewrite !Nat.eqb_refl.
      cbn [andb Nat.ltb Nat.leb].
      destruct c as [|[|[|[|[|[|c]]]]]]; try discriminate Hc6;
        unfold lower6; munfold; r64; unfold Rdiv; ring.
    + unfold store6. now rewrite Hc.
  - intro m'. unfold upd. destruct (m' =? m)%nat eqn:Hm; trivial.
    apply Nat.eqb_eq in Hm. subst m'. munfold. r64. ring.
Qed.

End ZeroDisplacement.

(** C8. For every element whose nodal displacement and incremental
    displacement are zero, at every quadrature point the midpoint and the
    end-of-step gradient are the identity, [detF = 1], [L = 0], [Dadt = 0]
    and [Rot = I]; the linear-elastic update leaves every entry of the stress
    arrays as it was; and the local force of the element is the integral,
    with [detF = 1] and [Finv = I], of the total stress of the input state. *)
Theorem zero_displacement_element_at_rest
    (NODESPERELEM NUMQUADPTS : nat) (E : element_data R) (fl : ObjOfArr.fields)
    (dt : R) (k : nat) (s : stress_state R) :
  (forall a, a < NODESPERELEM ->
     let n := ObjOfArr.nodeList NODESPERELEM E k a in
     (arr_x (ObjOfArr.iu fl) n = 0%R /\ arr_y (ObjOfArr.iu fl) n = 0%R
      /\ arr_z (ObjOfArr.iu fl) n = 0%R)
     /\ (arr_x (ObjOfArr.iuhat fl) n = 0%R /\ arr_y (ObjOfArr.iuhat fl) n = 0%R
         /\ arr_z (ObjOfArr.iuhat fl) n = 0%R)) ->
  (forall q,
     let dU := ObjOfArr.dUdX_at NODESPERELEM E fl k q in
     let dUh := ObjOfArr.dUhatdX_at NODESPERELEM E fl k q in
     let kin := ObjOfArr.kinematics_at NODESPERELEM E fl dt k q in
     midpoint_gradient dU dUh = midentity
     /\ end_of_step_gradient dU dUh = midentity
     /\ kin_detF kin = 1%R
     /\ kin_L kin = mzero
     /\ kin_Dadt kin = mzero
     /\ kin_Rot kin = midentity)
  /\
  let out :=
    ObjOfArr.quadrature_loop NODESPERELEM NUMQUADPTS E fl dt
      (@UpdateStatePoint R _) k s in
  (forall k' q' c, devStressData (fst out) k' q' c = devStressData s k' q' c)
  /\ (forall m, meanStress (fst out) m = meanStress s m)
  /\ snd out =
       fold_left
         (fun f q =>
            ObjOfArr.Integrate NODESPERELEM f (idetJ E k q) 1%R midentity
              (TotalStress s k q (iconstitutiveMap E k q)) fl k q)
         (seq 0 NUMQUADPTS) ObjOfArr.f_local_zero.
Proof.
  intro H0.
  assert (HU : forall q, ObjOfArr.dUdX_at NODESPERELEM E fl k q = mzero).
  { intro q. apply OoA_gradient_of_zero. intros a Ha.
    destruct (H0 a Ha) as [Hu _]. exact Hu. }
  assert (HUh : forall q, ObjOfArr.dUhatdX_at NODESPERELEM E fl k q = mzero).
  { intro q. apply OoA_gradient_of_zero. intros a Ha.
    destruct (H0 a Ha) as [_ Hu]. exact Hu. }
  assert (HK : forall q, ObjOfArr.kinematics_at NODESPERELEM E fl dt k q
                         = Kin mzero 1%R midentity midentity mzero).
  { intro q. unfold ObjOfArr.kinematics_at, ObjOfArr.local_kinematics.
    fold (ObjOfArr.dUdX_at NODESPERELEM E fl k q).
    fold (ObjOfArr.dUhatdX_at NODESPERELEM E fl k q).
    rewrite HU, HUh. apply point_kinematics_zero. }
  split.
  - intros q dU dUh kin. subst dU dUh kin. rewrite HU, HUh, HK.
    cbn [kin_detF kin_L kin_Dadt kin_Rot].
    repeat split; munfold; r64; f_equal; lra.
  - unfold ObjOfArr.quadrature_loop.
    generalize (@ObjOfArr.f_local_zero R _). generalize (seq 0 NUMQUADPTS).
    intros qs f.
    assert (Hgen : forall s1 f,
      (forall k' q' c, devStressData s1 k' q' c = devStressData s k' q' c) ->
      (forall m, meanStress s1 m = meanStress s m) ->
      let out :=
        fold_left
          (ObjOfArr.quadrature_body NODESPERELEM E fl dt (@UpdateStatePoint R _) k
             (ObjOfArr.GlobalToLocal (ObjOfArr.nodeList NODESPERELEM E k) (ObjOfArr.iu fl))
             (ObjOfArr.GlobalToLocal (ObjOfArr.nodeList NODESPERELEM E k) (ObjOfArr.iuhat fl)))
          qs (s1, f) in
      (forall k' q' c, devStressData (fst out) k' q' c = devStressData s k' q' c)
      /\ (forall m, meanStress (fst out) m = meanStress s m)
      /\ snd out =
           fold_left
             (fun f q =>
                ObjOfArr.Integrate NODESPERELEM f (idetJ E k q) 1%R midentity
                  (TotalStress s k q (iconstitutiveMap E k q)) fl k q)
             qs f).
    { clear f. induction qs as [|q qs IH]; intros s1 f Hd Hm; cbn [fold_left].
      - cbn. auto.
      - unfold ObjOfArr.quadrature_body at 2 4 6. cbn [fst snd].
        fold (ObjOfArr.kinematics_at NODESPERELEM E fl dt k q).
        rewrite HK. cbn [kin_detF kin_Finv kin_Dadt kin_Rot].
        destruct (UpdateStatePoint_at_rest (iconstitutiveMap E k q) q k s1
                    (ishearModulus E) (ibulkModulus E)) as [Hd1 Hm1].
        match goal with
        | |- context [TotalStress ?S k q ?m] =>
            assert (HT : TotalStress S k q m = TotalStress s k q m)
        end.
        { apply TotalStress_ext.
          - intro c. now rewrite Hd1, Hd.
          - now rewrite Hm1, Hm. }
        rewrite HT. apply IH.
        + intros. now rewrite Hd1, Hd.
        + intros. now rewrite Hm1, Hm. }
    apply Hgen; auto.
Qed.

(** The statement of C8 on the element at rest: [detF = 1] at point (0,0). *)
Lemma zero_displacement_element_at_rest_witness :
  kin_detF (ObjOfArr.kinematics_at 8 rest_data rest_fields 1%R 0 0) = 1%R.
Proof.
  refine (proj1 (proj2 (proj2
    (proj1 (@zero_displacement_element_at_rest 8 8 rest_data rest_fields 1%R 0
              zero_stress_exact _) 0)))).
  intros a Ha. cbn. repeat split; reflexivity.
Defined.

(** * The scatter-add of the element forces *)

Section Scatter.

Local Open Scope R_scope.




End Scatter.

(** * Binary64: the division by the time step *)

Section Binary64.

Local Open Scope float_scope.

Lemma SFcompare_finite_refl s m e :
  SFcompare (S754_finite s m e) (S754_finite s m e) = Some Eq.
Proof.
  cbn. destruct s; rewrite Z.compare_refl, Pos.compare_cont_refl; reflexivity.
Qed.

Lemma is_finite_SF (x : float) :
  PrimFloat.is_finite x = negb (SF_nonfinite (Prim2SF x)).
Proof.
  unfold PrimFloat.is_finite, PrimFloat.is_nan, PrimFloat.is_infinity.
  rewrite !eqb_spec, abs_spec.
  replace (Prim2SF infinity) with (S754_infinity false) by reflexivity.
  destruct (Prim2SF x) as [s | s | | s m e].
  - reflexivity.
  - destruct s; reflexivity.
  - reflexivity.
  - unfold SFeqb. rewrite SFcompare_finite_refl. reflexivity.
Qed.

Lemma is_zero_SF (x : float) :
  (x =? 0) = true -> exists s, Prim2SF x = S754_zero s.
Proof.
  rewrite eqb_spec.
  replace (Prim2SF 0) with (S754_zero false) by reflexivity.
  destruct (Prim2SF x) as [s | s | | s m e]; intro H.
  - now exists s.
  - destruct s; discriminate H.
  - discriminate H.
  - destruct s; discriminate H.
Qed.

Lemma one_over_zero (dt : float) :
  (dt =? 0) = true -> exists s, Prim2SF (1 / dt) = S754_infinity s.
Proof.
  intro H. destruct (is_zero_SF dt H) as [s Hs].
  rewrite div_spec, Hs.
  replace (Prim2SF 1) with (S754_finite false 4503599627370496 (-52)) by reflexivity.
  exists s. reflexivity.
Qed.

Lemma mul_nonfinite_l (x y : float) :
  SF_nonfinite (Prim2SF x) = true -> SF_nonfinite (Prim2SF (x * y)) = true.
Proof.
  rewrite mul_spec.
  destruct (Prim2SF x) as [s | s | | s m e]; try discriminate;
    destruct (Prim2SF y) as [s' | s' | | s' m' e']; reflexivity.
Qed.

Lemma mul_nonfinite_r (x y : float) :
  SF_nonfinite (Prim2SF y) = true -> SF_nonfinite (Prim2SF (x * y)) = true.
Proof.
  rewrite mul_spec.
  destruct (Prim2SF y) as [s | s | | s m e]; try discriminate;
    destruct (Prim2SF x) as [s' | s' | | s' m' e']; reflexivity.
Qed.

Lemma add_nonfinite (x y : float) :
  SF_nonfinite (Prim2SF x) = true -> SF_nonfinite (Prim2SF y) = true ->
  SF_nonfinite (Prim2SF (x + y)) = true.
Proof.
  rewrite add_spec.
  destruct (Prim2SF x) as [s | s | | s m e]; try discriminate;
    destruct (Prim2SF y) as [s' | s' | | s' m' e']; try discriminate;
    try reflexivity; destruct s, s'; reflexivity.
Qed.

(** With a zero time step every entry of [dvdX], and so of [L], is an
    infinity or not a number, whatever the gradients are. *)
Lemma scaled_increment_nonfinite (dUhatdX : mat3 float) (dt : float) (i j : nat) :
  (dt =? 0) = true ->
  SF_nonfinite (Prim2SF (mget (scaled_increment dUhatdX dt) i j)) = true.
Proof.
  intro H. destruct (one_over_zero dt H) as [s Hs].
  assert (Hn : forall x, SF_nonfinite (Prim2SF (x * (1 / dt))) = true).
  { intro x. apply mul_nonfinite_r. now rewrite Hs. }
  destruct i as [|[|i]], j as [|[|j]]; apply Hn.
Qed.

Lemma velocity_gradient_nonfinite (dUdX dUhatdX : mat3 float) (dt : float) (i j : nat) :
  (dt =? 0) = true ->
  SF_nonfinite (Prim2SF (mget (velocity_gradient dUdX dUhatdX dt) i j)) = true.
Proof.
  intro H. unfold velocity_gradient.
  pose proof (scaled_increment_nonfinite dUhatdX dt) as Hd.
  generalize dependent (scaled_increment dUhatdX dt). intros dvdX Hd.
  generalize (Finverse (midpoint_gradient dUdX dUhatdX)). intro Finv.
  assert (Hn : forall a b c x y z,
             SF_nonfinite (Prim2SF (mget dvdX a b * x + mget dvdX a c * y
                                    + mget dvdX a 2%nat * z)) = true).
  { intros. repeat apply add_nonfinite; apply mul_nonfinite_l; now apply Hd. }
  destruct i as [|[|i]], j as [|[|j]]; apply (Hn _ 0%nat 1%nat).
Qed.

End Binary64.

(** C10. No kernel guards the division [1.0/dt]: in binary64, an entry of
    the velocity gradient [L] (object-of-arrays or array-of-objects, monolithic
    or kinematic kernel) can be a finite number only if the time step is not
    zero; with [dt = 0] every entry of [dvdX] and of [L] is an infinity or not
    a number. *)
Theorem finite_velocity_gradient_needs_nonzero_dt
    (NODESPERELEM : nat) (E : element_data float) (dt : float) (k q i j : nat) :
  (forall fl : ObjOfArr.fields,
     PrimFloat.is_finite
       (mget (kin_L (ObjOfArr.kinematics_at NODESPERELEM E fl dt k q)) i j) = true
     \/ PrimFloat.is_finite
          (mget (scaled_increment (ObjOfArr.dUhatdX_at NODESPERELEM E fl k q) dt) i j) = true ->
     PrimFloat.eqb dt 0 = false)
  /\
  (forall fl : ArrOfObj.fields,
     PrimFloat.is_finite
       (mget (kin_L (ArrOfObj.kinematics_at NODESPERELEM E fl dt k q)) i j) = true
     \/ PrimFloat.is_finite
          (mget (scaled_increment (ArrOfObj.dUhatdX_at NODESPERELEM E fl k q) dt) i j) = true ->
     PrimFloat.eqb dt 0 = false)
  /\
  (forall dU dUh : mat3 float,
     PrimFloat.is_finite (mget (velocity_gradient dU dUh dt) i j) = true ->
     PrimFloat.eqb dt 0 = false).
Proof.
  split; [ | split ]; [ intros fl H | intros fl H | intros dU dUh H ];
    destruct (PrimFloat.eqb dt 0) eqn:Hdt; trivial; exfalso.
  - destruct H as [H|H]; rewrite is_finite_SF in H.
    + unfold ObjOfArr.kinematics_at, ObjOfArr.local_kinematics, point_kinematics in H.
      cbn [kin_L] in H.
      rewrite velocity_gradient_nonfinite in H by exact Hdt. discriminate H.
    + rewrite scaled_increment_nonfinite in H by exact Hdt. discriminate H.
  - destruct H as [H|H]; rewrite is_finite_SF in H.
    + unfold ArrOfObj.kinematics_at, ArrOfObj.local_kinematics, point_kinematics in H.
      cbn [kin_L] in H.
      rewrite velocity_gradient_nonfinite in H by exact Hdt. discriminate H.
    + rewrite scaled_increment_nonfinite in H by exact Hdt. discriminate H.
  - rewrite is_finite_SF in H.
    rewrite velocity_gradient_nonfinite in H by exact Hdt. discriminate H.
Qed.

(** The statement of C10 at a unit time step, where [L] is finite. *)
Lemma finite_velocity_gradient_needs_nonzero_dt_witness :
  PrimFloat.is_finite
    (mget (kin_L (ArrOfObj.kinematics_at 8 shared_index_data stretch_fields
                    1%float 0 0)) 0 0) = true
  /\ PrimFloat.eqb 1 0 = false.
Proof.
  split; [ vm_compute; reflexivity | ].
  apply (proj1 (proj2 (@finite_velocity_gradient_needs_nonzero_dt 8
                         shared_index_data 1%float 0 0 0 0)) stretch_fields).
  left. vm_compute. reflexivity.
Defined.

(** * The time-stepping routines *)

Section PointwiseLoops.

(** A loop that stores, at each index of its list, a value computed from the
    entry it finds there. *)
Lemma fold_upd_other {A : Type} (h : nat -> A -> A) (l : list nat) :
  forall (y : nat -> A) (a : nat),
    ~ In a l ->
    fold_left (fun y a => upd y a (h a (y a))) l y a = y a.
Proof.
  induction l as [|a0 l IH]; intros y a Hn; cbn [fold_left]; trivial.
  rewrite IH by (intro; apply Hn; now right).
  unfold upd. destruct (a =? a0) eqn:Ha; trivial.
  apply Nat.eqb_eq in Ha. subst. exfalso. apply Hn. now left.
Qed.

Lemma fold_upd_at {A : Type} (h : nat -> A -> A) (l : list nat) :
  forall (y : nat -> A) (a : nat),
    NoDup l -> In a l ->
    fold_left (fun y a => upd y a (h a (y a))) l y a = h a (y a).
Proof.
  induction l as [|a0 l IH]; intros y a Hnd Hin; [ destruct Hin | ].
  inversion Hnd as [|? ? Hnotin Hnd']; subst. cbn [fold_left].
  destruct Hin as [->|Hin].
  - rewrite fold_upd_other by assumption.
    unfold upd. now rewrite Nat.eqb_refl.
  - rewrite IH by assumption.
    unfold upd. destruct (a =? a0) eqn:Ha; trivial.
    apply Nat.eqb_eq in Ha. subst. contradiction.
Qed.

End PointwiseLoops.

Section OnePointLaws.

Context {T : Type} {RT : Real64 T}.

Lemma advance_as_store (dydx : nat -> R1Tensor T) (dx : T) :
  advance dydx dx = fun y a => upd y a (advanced dx (dydx a) (y a)).
Proof. reflexivity. Qed.

Lemma OnePoint_indices_other (dydx y : nat -> R1Tensor T) (dx : T)
    (indices : list nat) (length a : nat) :
  ~ In a (firstn length indices) ->
  OnePoint_indices dydx y dx indices length a = y a.
Proof.
  intro H. unfold OnePoint_indices. rewrite advance_as_store.
  now apply (fold_upd_other (fun a v => advanced dx (dydx a) v)).
Qed.

Lemma OnePoint_indices_at (dydx y : nat -> R1Tensor T) (dx : T)
    (indices : list nat) (length a : nat) :
  NoDup (firstn length indices) -> In a (firstn length indices) ->
  OnePoint_indices dydx y dx indices length a = advanced dx (dydx a) (y a).
Proof.
  intros Hnd H. unfold OnePoint_indices. rewrite advance_as_store.
  now apply (fold_upd_at (fun a v => advanced dx (dydx a) v)).
Qed.

Lemma OnePoint_closed (dydx y : nat -> R1Tensor T) (dx : T) (length a : nat) :
  OnePoint dydx y dx length a
  = if a <? length then advanced dx (dydx a) (y a) else y a.
Proof.
  unfold OnePoint. rewrite advance_as_store.
  destruct (a <? length) eqn:Ha.
  - apply Nat.ltb_lt in Ha.
    apply (fold_upd_at (fun a v => advanced dx (dydx a) v)).
    + apply seq_NoDup.
    + apply in_seq. lia.
  - apply Nat.ltb_ge in Ha.
    apply (fold_upd_other (fun a v => advanced dx (dydx a) v)).
    rewrite in_seq. lia.
Qed.

End OnePointLaws.

(** X1. [OnePoint] over a range advances exactly the entries below
    [length], each once, by [dx * dydx]; every entry from [length] on is left
    as it was, and a zero [length] changes nothing (every arithmetic). *)
Theorem OnePoint_advances_the_range
    (T : Type) (RT : Real64 T) (dydx y : nat -> R1Tensor T) (dx : T)
    (length : nat) :
  (forall a, a < length ->
     OnePoint dydx y dx length a
     = Tensor1 (r_add (t0 (y a)) (r_mul dx (t0 (dydx a))))
          (r_add (t1 (y a)) (r_mul dx (t1 (dydx a))))
          (r_add (t2 (y a)) (r_mul dx (t2 (dydx a)))))
  /\ (forall a, length <= a -> OnePoint dydx y dx length a = y a)
  /\ (forall a, OnePoint dydx y dx 0 a = y a).
Proof.
  split; [ | split ]; intros a.
  - intro Ha. rewrite OnePoint_closed. apply Nat.ltb_lt in Ha. now rewrite Ha.
  - intro Ha. rewrite OnePoint_closed. apply Nat.ltb_ge in Ha. now rewrite Ha.
  - now rewrite OnePoint_closed.
Qed.

(** X2. [OnePoint] over a set of indices touches no entry outside the first
    [length] indices, whatever the list, repeated indices included; when the
    first [length] indices are pairwise distinct, each listed entry is
    advanced once by [dx * dydx] (every arithmetic). *)
Theorem OnePoint_indices_advances_the_set
    (T : Type) (RT : Real64 T) (dydx y : nat -> R1Tensor T) (dx : T)
    (indices : list nat) (length : nat) :
  (forall a, ~ In a (firstn length indices) ->
     OnePoint_indices dydx y dx indices length a = y a)
  /\ (NoDup (firstn length indices) ->
      forall a, In a (firstn length indices) ->
        OnePoint_indices dydx y dx indices length a
        = Tensor1 (r_add (t0 (y a)) (r_mul dx (t0 (dydx a))))
            (r_add (t1 (y a)) (r_mul dx (t1 (dydx a))))
            (r_add (t2 (y a)) (r_mul dx (t2 (dydx a))))).
Proof.
  split.
  - intros a Hn. now apply OnePoint_indices_other.
  - intros Hnd a Hin. now rewrite OnePoint_indices_at.
Qed.

(** The frame on a list with a repeated index, and the advance on a list of
    distinct indices. *)
Lemma OnePoint_indices_advances_the_set_witness :
  OnePoint_indices unit_rates zero_tensors 2%R [2; 2; 5] 3 7 = zero_tensors 7
  /\ OnePoint_indices unit_rates zero_tensors 2%R [4; 1; 7] 2 1
     = Tensor1 (0 + 2 * 1)%R (0 + 2 * 2)%R (0 + 2 * 3)%R.
Proof.
  split.
  - apply (proj1 (@OnePoint_indices_advances_the_set R _ unit_rates zero_tensors
                    2%R [2; 2; 5] 3)).
    cbn. intuition discriminate.
  - refine (proj2 (@OnePoint_indices_advances_the_set R _ unit_rates zero_tensors
                     2%R [4; 1; 7] 2) _ 1 _).
    + cbn. repeat constructor; cbn; intuition discriminate.
    + cbn. tauto.
Defined.

(** A loop whose step changes, of what can be observed of the state at an
    index, only the observation at the index it visits. *)
Section ObservedLoops.

Variables (S V : Type) (step : S -> nat -> S) (view : S -> nat -> V)
          (h : nat -> V -> V).
Hypothesis view_step : forall s a a',
  view (step s a) a' = if a' =? a then h a (view s a) else view s a'.

Lemma fold_view_other (l : list nat) : forall s a,
  ~ In a l -> view (fold_left step l s) a = view s a.
Proof.
  induction l as [|a0 l IH]; intros s a Hn; cbn [fold_left]; trivial.
  rewrite IH by (intro; apply Hn; now right).
  rewrite view_step. destruct (a =? a0) eqn:Ha; trivial.
  apply Nat.eqb_eq in Ha. subst. exfalso. apply Hn. now left.
Qed.

Lemma fold_view_at (l : list nat) : forall s a,
  NoDup l -> In a l -> view (fold_left step l s) a = h a (view s a).
Proof.
  induction l as [|a0 l IH]; intros s a Hnd Hin; [ destruct Hin | ].
  inversion Hnd as [|? ? Hnotin Hnd']; subst. cbn [fold_left].
  destruct Hin as [->|Hin].
  - rewrite fold_view_other by assumption.
    rewrite view_step. now rewrite Nat.eqb_refl.
  - rewrite IH by assumption.
    rewrite view_step. destruct (a =? a0) eqn:Ha; trivial.
    apply Nat.eqb_eq in Ha. subst. contradiction.
Qed.

Lemma fold_view_range (n : nat) (s : S) (a : nat) :
  view (fold_left step (seq 0 n) s) a
  = if a <? n then h a (view s a) else view s a.
Proof.
  destruct (a <? n) eqn:Ha.
  - apply Nat.ltb_lt in Ha. apply fold_view_at.
    + apply seq_NoDup.
    + apply in_seq. lia.
  - apply Nat.ltb_ge in Ha. apply fold_view_other. rewrite in_seq. lia.
Qed.

End ObservedLoops.

Section OnePointOverloads.

Context {T : Type} {RT : Real64 T}.

(** The increment [dydx * dx] the overloads with [dy] store. *)
Local Abbreviation increment dx d :=
  (Tensor1 (r_mul (t0 d) dx) (r_mul (t1 d) dx) (r_mul (t2 d) dx)).
Local Abbreviation plus v w :=
  (Tensor1 (r_add (t0 v) (t0 w)) (r_add (t1 v) (t1 w)) (r_add (t2 v) (t2 w))).

Lemma OnePoint_dy_closed (dydx dy y : nat -> R1Tensor T) (dx : T) (n a : nat) :
  let out := OnePoint_dy dydx dy y dx n in
  (fst out a, snd out a)
  = if a <? n
    then (increment dx (dydx a), plus (y a) (increment dx (dydx a)))
    else (dy a, y a).
Proof.
  intro out. subst out. unfold OnePoint_dy.
  apply (fold_view_range _ _ _
           (fun st a => (fst st a, snd st a))
           (fun a v => (increment dx (dydx a), plus (snd v) (increment dx (dydx a))))).
  intros s a0 a'. cbn [fst snd]. unfold upd.
  rewrite Nat.eqb_refl. destruct (a' =? a0); reflexivity.
Qed.

Lemma OnePoint_dy_components_closed (dydx : nat -> R1Tensor T) (dy y : xyz T)
    (dx : T) (n a : nat) :
  let out := OnePoint_dy_components dydx dy y dx n in
  let tensor (v : xyz T) := Tensor1 (arr_x v a) (arr_y v a) (arr_z v a) in
  (tensor (fst out), tensor (snd out))
  = if a <? n
    then (increment dx (dydx a), plus (tensor y) (increment dx (dydx a)))
    else (tensor dy, tensor y).
Proof.
  intros out tensor. subst out tensor. unfold OnePoint_dy_components.
  apply (fold_view_range _ _ _
           (fun st a => (Tensor1 (arr_x (fst st) a) (arr_y (fst st) a) (arr_z (fst st) a),
                         Tensor1 (arr_x (snd st) a) (arr_y (snd st) a) (arr_z (snd st) a)))
           (fun a v => (increment dx (dydx a), plus (snd v) (increment dx (dydx a))))).
  intros s a0 a'. cbn [fst snd arr_x arr_y arr_z t0 t1 t2]. unfold upd.
  rewrite Nat.eqb_refl. destruct (a' =? a0); reflexivity.
Qed.

End OnePointOverloads.

(** X3. In exact arithmetic the steps of [OnePoint] add up: a step by [dx1]
    followed by a step by [dx2] is the step by [dx1 + dx2], over a range and
    over a set of pairwise distinct indices; in particular the step by [-dx]
    undoes the step by [dx]. *)
Theorem OnePoint_steps_add_up
    (dydx y : nat -> R1Tensor R) (dx1 dx2 : R) (indices : list nat)
    (length a : nat) :
  NoDup (firstn length indices) ->
  (OnePoint dydx (OnePoint dydx y dx1 length) dx2 length a
   = OnePoint dydx y (dx1 + dx2)%R length a
   /\ OnePoint_indices dydx (OnePoint_indices dydx y dx1 indices length) dx2
        indices length a
      = OnePoint_indices dydx y (dx1 + dx2)%R indices length a)
  /\ (OnePoint dydx (OnePoint dydx y dx1 length) (- dx1)%R length a = y a
      /\ OnePoint_indices dydx (OnePoint_indices dydx y dx1 indices length)
           (- dx1)%R indices length a = y a).
Proof.
  intro Hnd.
  assert (Hadd : forall v d : R1Tensor R,
            advanced dx2 d (advanced dx1 d v) = advanced (dx1 + dx2)%R d v).
  { intros v d. unfold advanced. cbn [t0 t1 t2]. r64. f_equal; ring. }
  assert (Hundo : forall v d : R1Tensor R,
            advanced (- dx1)%R d (advanced dx1 d v) = v).
  { intros [v0 v1 v2] d. unfold advanced. cbn [t0 t1 t2]. r64. f_equal; ring. }
  repeat rewrite OnePoint_closed.
  destruct (a <? length);
    destruct (in_dec Nat.eq_dec a (firstn length indices)) as [Hin|Hin];
    repeat rewrite OnePoint_indices_at by assumption;
    repeat rewrite OnePoint_indices_other by assumption;
    rewrite ?Hadd, ?Hundo; auto.
Qed.

Lemma OnePoint_steps_add_up_witness :
  OnePoint unit_rates (OnePoint unit_rates zero_tensors 2%R 3) (- (2))%R 3 1
  = zero_tensors 1.
Proof.
  refine (proj1 (proj2 (@OnePoint_steps_add_up unit_rates zero_tensors 2%R 5%R
                          [4; 1; 7] 3 1 _))).
  cbn. repeat constructor; cbn; intuition discriminate.
Defined.

(** X4. The overload of [OnePoint] that takes the derivative in three
    arrays does what the overload on an array of tensors does, whenever the
    three arrays hold the components of the tensors on the range (every
    arithmetic). *)
Theorem OnePoint_components_agrees
    (T : Type) (RT : Real64 T) (dydx_0 dydx_1 dydx_2 : nat -> T)
    (dydx y : nat -> R1Tensor T) (dx : T) (length : nat) :
  (forall a, a < length ->
     dydx_0 a = t0 (dydx a) /\ dydx_1 a = t1 (dydx a) /\ dydx_2 a = t2 (dydx a)) ->
  OnePoint_components dydx_0 dydx_1 dydx_2 y dx length = OnePoint dydx y dx length.
Proof.
  intro H. unfold OnePoint_components, OnePoint.
  apply fold_left_ext_in. intros y' a Ha.
  apply in_seq in Ha. destruct (H a) as (H0 & H1 & H2); [ lia | ].
  unfold advance. now rewrite H0, H1, H2.
Qed.

Lemma OnePoint_components_agrees_witness :
  OnePoint_components (fun _ => 1%R) (fun _ => 2%R) (fun _ => 3%R) zero_tensors 2%R 3
  = OnePoint unit_rates zero_tensors 2%R 3.
Proof.
  apply (@OnePoint_components_agrees R _ (fun _ => 1%R) (fun _ => 2%R) (fun _ => 3%R)
           unit_rates zero_tensors 2%R 3).
  intros a Ha. cbn. repeat split; reflexivity.
Defined.

(** X5. The overload of [OnePoint] with an increment array stores
    [dydx * dx] in [dy] and adds it to [y] on the range, and leaves both arrays
    as they were from [length] on (every arithmetic).  It multiplies in the
    other order than the first overload ([dydx*dx] for [dx*dydx]); in exact
    arithmetic it leaves in [y] what the first overload leaves there. *)
Theorem OnePoint_dy_stores_the_increment_and_agrees :
  (forall (T : Type) (RT : Real64 T) (dydx dy y : nat -> R1Tensor T) (dx : T)
          (length a : nat),
     let out := OnePoint_dy dydx dy y dx length in
     (a < length ->
      fst out a = Tensor1 (r_mul (t0 (dydx a)) dx) (r_mul (t1 (dydx a)) dx)
                          (r_mul (t2 (dydx a)) dx)
      /\ snd out a = Tensor1 (r_add (t0 (y a)) (t0 (fst out a)))
                             (r_add (t1 (y a)) (t1 (fst out a)))
                             (r_add (t2 (y a)) (t2 (fst out a))))
     /\ (length <= a -> fst out a = dy a /\ snd out a = y a))
  /\ (forall (dydx dy y : nat -> R1Tensor R) (dx : R) (length a : nat),
        snd (OnePoint_dy dydx dy y dx length) a = OnePoint dydx y dx length a).
Proof.
  split.
  - intros T RT dydx dy y dx length a out.
    pose proof (OnePoint_dy_closed dydx dy y dx length a) as H.
    cbv zeta in H. fold out in H.
    split; intro Ha.
    + apply Nat.ltb_lt in Ha. rewrite Ha in H.
      injection H as H1 H2. rewrite H2, H1. cbn [t0 t1 t2]. now split.
    + apply Nat.ltb_ge in Ha. rewrite Ha in H.
      injection H as H1 H2. now split.
  - intros dydx dy y dx length a.
    pose proof (OnePoint_dy_closed dydx dy y dx length a) as H.
    cbv zeta in H. rewrite OnePoint_closed.
    destruct (a <? length); injection H as _ H2; rewrite H2; trivial.
    unfold advanced. r64. f_equal; ring.
Qed.

(** X6. The overload of [OnePoint] with the increment and the result in
    three arrays each does what the overload on arrays of tensors does: when
    its six arrays hold the components of [dy] and [y] at an index on entry,
    they hold them on exit (every arithmetic). *)
Theorem OnePoint_dy_components_agrees
    (T : Type) (RT : Real64 T) (dydx dy0 y0 : nat -> R1Tensor T) (dy y : xyz T)
    (dx : T) (length a : nat) :
  dy0 a = Tensor1 (arr_x dy a) (arr_y dy a) (arr_z dy a) ->
  y0 a = Tensor1 (arr_x y a) (arr_y y a) (arr_z y a) ->
  let out := OnePoint_dy_components dydx dy y dx length in
  let out0 := OnePoint_dy dydx dy0 y0 dx length in
  fst out0 a = Tensor1 (arr_x (fst out) a) (arr_y (fst out) a) (arr_z (fst out) a)
  /\ snd out0 a = Tensor1 (arr_x (snd out) a) (arr_y (snd out) a) (arr_z (snd out) a).
Proof.
  intros Hdy Hy out out0.
  pose proof (OnePoint_dy_components_closed dydx dy y dx length a) as H.
  pose proof (OnePoint_dy_closed dydx dy0 y0 dx length a) as H0.
  cbv zeta in H, H0. fold out in H. fold out0 in H0.
  rewrite Hdy, Hy in H0. rewrite <- H in H0.
  injection H0 as H1 H2. now split.
Qed.

Lemma OnePoint_dy_components_agrees_witness :
  snd (OnePoint_dy unit_rates zero_tensors zero_tensors 2%R 3) 1
  = Tensor1
      (arr_x (snd (OnePoint_dy_components unit_rates zero_xyz_exact zero_xyz_exact 2%R 3)) 1)
      (arr_y (snd (OnePoint_dy_components unit_rates zero_xyz_exact zero_xyz_exact 2%R 3)) 1)
      (arr_z (snd (OnePoint_dy_components unit_rates zero_xyz_exact zero_xyz_exact 2%R 3)) 1).
Proof.
  refine (proj2 (@OnePoint_dy_components_agrees R _ unit_rates zero_tensors
                   zero_tensors zero_xyz_exact zero_xyz_exact 2%R 3 1 _ _));
    reflexivity.
Defined.

(** * The constitutive kernel *)

Section RotatedDeviator.

Local Open Scope R_scope.

(** A rotated symmetric tensor is symmetric: its lower triangle holds all
    of it. *)
Lemma rotation_keeps_symmetry (Q : mat3 R) (v : nat -> R) :
  sym_tensor (lower6 (mmul (mmul Q (sym_tensor v)) (mtranspose Q)))
  = mmul (mmul Q (sym_tensor v)) (mtranspose Q).
Proof.
  destruct Q. unfold sym_tensor, lower6. munfold. r64. f_equal; ring.
Qed.

Lemma trace_of_rotation (Q S : mat3 R) :
  mtrace (mmul (mmul Q S) (mtranspose Q)) = mdot S (mmul (mtranspose Q) Q).
Proof.
  destruct Q, S. unfold mdot. munfold. r64. ring.
Qed.

Lemma mdot_identity (S : mat3 R) : mdot S midentity = mtrace S.
Proof.
  destruct S. unfold mdot. munfold. r64. ring.
Qed.

Lemma increment_trace_free (D : mat3 R) (G : R) :
  mtrace (mscale (2 * G) (msub D (mscale (mtrace D / 3) midentity))) = 0.
Proof.
  destruct D. munfold. r64. field.
Qed.

Lemma TotalStress_exact (s : stress_state R) (k q m : nat) :
  TotalStress s k q m
  = madd (sym_tensor (devStressData s k q)) (mscale (meanStress s m) midentity).
Proof.
  unfold TotalStress, sym_tensor. munfold. r64. f_equal; ring.
Qed.


Lemma stored_rotated_tensor
    (b : kinematic_buffers R) (E : element_data R) (k q : nat) (s : stress_state R) :
  let Dadt := mbuild (Dadt_ptr b k q) in
  let Rot := mbuild (Rot_ptr b k q) in
  let increment :=
    mscale (2 * ishearModulus E) (msub Dadt (mscale (mtrace Dadt / 3) midentity)) in
  let S := sym_tensor (fun c => devStressData s k q c + lower6 increment c) in
  sym_tensor (devStressData (constitutive_body b E k s q) k q)
  = mmul (mmul Rot S) (mtranspose Rot).
Proof.
  intros Dadt Rot increment S.
  unfold S. rewrite <- (rotation_keeps_symmetry Rot).
  unfold sym_tensor at 1 2.
  rewrite !constitutive_body_dev, !Nat.eqb_refl. reflexivity.
Qed.

(** X7. In exact arithmetic the tensor [Rot . S . Rot^T] that
    [ConstitutiveUpdateKernel] computes is symmetric, so the six components it
    stores hold all of it: mirrored back, they are the rotated tensor, and the
    total stress assembled from the updated state is that tensor plus the
    updated mean stress on the diagonal. *)
Theorem constitutive_update_stores_the_whole_rotated_tensor
    (b : kinematic_buffers R) (E : element_data R) (k q : nat) (s : stress_state R) :
  let Dadt := mbuild (Dadt_ptr b k q) in
  let Rot := mbuild (Rot_ptr b k q) in
  let m := iconstitutiveMap E k q in
  let tr := mtrace Dadt in
  let increment :=
    mscale (2 * ishearModulus E) (msub Dadt (mscale (tr / 3) midentity)) in
  let S := sym_tensor (fun c => devStressData s k q c + lower6 increment c) in
  let s' := constitutive_body b E k s q in
  sym_tensor (devStressData s' k q) = mmul (mmul Rot S) (mtranspose Rot)
  /\ TotalStress s' k q m
     = madd (mmul (mmul Rot S) (mtranspose Rot))
            (mscale (meanStress s m + tr * ibulkModulus E) midentity).
Proof.
  intros Dadt Rot m tr increment S s'.
  pose proof (stored_rotated_tensor b E k q s) as Hs. cbv zeta in Hs.
  split; [ exact Hs | ].
  rewrite TotalStress_exact. subst s'. rewrite Hs.
  rewrite constitutive_body_mean.
  fold m. rewrite Nat.eqb_refl. reflexivity.
Qed.

(** X8. In exact arithmetic, when the stored rotation is orthogonal
    ([Rot^T . Rot = I]) the update of [ConstitutiveUpdateKernel] keeps the trace
    of the stored deviatoric tensor: the increment
    [2 G (Dadt - trace(Dadt)/3 I)] is trace-free and the rotation preserves the
    trace.  A trace-free deviatoric stress stays trace-free. *)
Theorem constitutive_update_keeps_the_deviator_trace
    (b : kinematic_buffers R) (E : element_data R) (k q : nat) (s : stress_state R) :
  mmul (mtranspose (mbuild (Rot_ptr b k q))) (mbuild (Rot_ptr b k q)) = midentity ->
  let s' := constitutive_body b E k s q in
  devStressData s' k q 0 + devStressData s' k q 2 + devStressData s' k q 5
  = devStressData s k q 0 + devStressData s k q 2 + devStressData s k q 5.
Proof.
  intros Horth s'.
  change (devStressData s' k q 0 + devStressData s' k q 2 + devStressData s' k q 5)
    with (mtrace (sym_tensor (devStressData s' k q))).
  subst s'. rewrite stored_rotated_tensor.
  rewrite trace_of_rotation, Horth, mdot_identity.
  pose proof (increment_trace_free (mbuild (Dadt_ptr b k q)) (ishearModulus E)) as Hi.
  revert Hi.
  generalize (mscale (2 * ishearModulus E)
                (msub (mbuild (Dadt_ptr b k q))
                   (mscale (mtrace (mbuild (Dadt_ptr b k q)) / 3) midentity))).
  intros [i00 i01 i02 i10 i11 i12 i20 i21 i22].
  unfold sym_tensor, lower6, mtrace. cbn [m00 m11 m22 m10 m20 m21]. r64.
  intro Hi. lra.
Qed.

Lemma constitutive_update_keeps_the_deviator_trace_witness :
  (devStressData (constitutive_body identity_rotation_buffers rest_data 0
                    zero_stress_exact 0) 0 0 0
   + devStressData (constitutive_body identity_rotation_buffers rest_data 0
                      zero_stress_exact 0) 0 0 2
   + devStressData (constitutive_body identity_rotation_buffers rest_data 0
                      zero_stress_exact 0) 0 0 5
   = devStressData zero_stress_exact 0 0 0 + devStressData zero_stress_exact 0 0 2
     + devStressData zero_stress_exact 0 0 5)%R.
Proof.
  apply (@constitutive_update_keeps_the_deviator_trace identity_rotation_buffers
           rest_data 0 0 zero_stress_exact).
  unfold identity_rotation_buffers. cbn [Rot_ptr]. munfold. r64. f_equal; ring.
Defined.

End RotatedDeviator.

(** * The constitutive kernel acts point by point *)

Section PointByPoint.

Context {T : Type} {RT : Real64 T}.
Variable NUMQUADPTS : nat.
Variable E : element_data T.
Variable kin : nat -> nat -> kinematics T.

Local Abbreviation cmap := (iconstitutiveMap E).

(** The deviatoric components an update leaves at its own point depend on
    the state only through the components it finds there. *)
Lemma update_at_dev_ext (s1 s2 : stress_state T) (k q : nat) :
  (forall c, devStressData s1 k q c = devStressData s2 k q c) ->
  forall c, devStressData (update_at E kin k s1 q) k q c
            = devStressData (update_at E kin k s2 q) k q c.
Proof.
  intros H c. unfold update_at, UpdateStatePoint. cbn [devStressData].
  set (d1 := store6 (devStressData s1) k q _).
  set (d2 := store6 (devStressData s2) k q _).
  assert (Hd : forall c', d1 k q c' = d2 k q c').
  { intro c'. subst d1 d2. unfold store6. rewrite !Nat.eqb_refl. cbn [andb].
    now rewrite !H. }
  unfold store6 at 1 2. rewrite !Nat.eqb_refl. cbn [andb].
  destruct (c <? 6); [ | apply Hd ].
  unfold sym_tensor. now rewrite !Hd.
Qed.

Lemma update_fold_dev_at k qs : forall s q,
  NoDup qs -> In q qs ->
  forall c, devStressData (fold_left (update_at E kin k) qs s) k q c
            = devStressData (update_at E kin k s q) k q c.
Proof.
  induction qs as [|q0 qs IH]; intros s q Hnd Hin c; [ destruct Hin | ].
  inversion Hnd as [|? ? Hnotin Hnd']; subst. cbn [fold_left].
  destruct Hin as [->|Hin].
  - apply update_fold_dev_other. now right.
  - rewrite IH by assumption.
    apply update_at_dev_ext. intro c'.
    apply update_at_dev_other. intro Heq. inversion Heq; subst. contradiction.
Qed.

Lemma update_elements_dev_other ks : forall s k q c,
  ~ In k ks \/ ~ In q (seq 0 NUMQUADPTS) ->
  devStressData (update_elements NUMQUADPTS E kin ks s) k q c = devStressData s k q c.
Proof.
  induction ks as [|k0 ks IH]; intros s k q c H; cbn; trivial.
  unfold update_elements in *.
  rewrite IH by (destruct H as [H|H]; [ left; intro; apply H; now right | now right ]).
  unfold update_element. apply update_fold_dev_other.
  destruct H as [H|H]; [ left; intro; apply H; now left | now right ].
Qed.

Lemma update_elements_dev_at ks : forall s k q,
  NoDup ks -> In k ks -> In q (seq 0 NUMQUADPTS) ->
  forall c, devStressData (update_elements NUMQUADPTS E kin ks s) k q c
            = devStressData (update_at E kin k s q) k q c.
Proof.
  induction ks as [|k0 ks IH]; intros s k q Hnd Hk Hq c; [ destruct Hk | ].
  inversion Hnd as [|? ? Hnotin Hnd']; subst.
  change (update_elements NUMQUADPTS E kin (k0 :: ks) s)
    with (update_elements NUMQUADPTS E kin ks (update_element NUMQUADPTS E kin s k0)).
  destruct Hk as [->|Hk].
  - rewrite update_elements_dev_other by now left.
    unfold update_element. apply update_fold_dev_at; trivial. apply seq_NoDup.
  - rewrite IH by assumption.
    apply update_at_dev_ext. intro c'.
    unfold update_element. apply update_fold_dev_other.
    left. intro Heq. subst. contradiction.
Qed.

Lemma material_indices_in ks k q :
  In k ks -> In q (seq 0 NUMQUADPTS) ->
  In (cmap k q) (material_indices NUMQUADPTS E ks).
Proof.
  intros Hk Hq. unfold material_indices. apply in_flat_map.
  exists k. split; trivial. exact (in_map (cmap k) _ _ Hq).
Qed.

(** Distinct material indices over the points visited mean distinct
    elements, as soon as an element has a quadrature point. *)
Lemma material_indices_NoDup_elements ks q :
  NoDup (material_indices NUMQUADPTS E ks) -> In q (seq 0 NUMQUADPTS) -> NoDup ks.
Proof.
  intros Hnd Hq. induction ks as [|k ks IH]; [ constructor | ].
  cbn in Hnd. constructor.
  - intro Hk.
    exact (NoDup_app_disjoint _ _ _ Hnd (in_map (cmap k) _ _ Hq)
             (material_indices_in ks k q Hk Hq)).
  - apply IH. now apply NoDup_app_remove_l in Hnd.
Qed.

Lemma visited_true ks k q :
  visited NUMQUADPTS ks k q = true <-> In k ks /\ In q (seq 0 NUMQUADPTS).
Proof.
  unfold visited. rewrite andb_true_iff, Nat.ltb_lt, in_seq.
  split; intros [Hk Hq]; (split; [ | lia ]).
  - apply existsb_exists in Hk as (x & Hx & Hkx).
    apply Nat.eqb_eq in Hkx. now subst.
  - apply existsb_exists. exists k. split; trivial. apply Nat.eqb_refl.
Qed.

Lemma visited_false ks k q :
  visited NUMQUADPTS ks k q = false -> ~ In k ks \/ ~ In q (seq 0 NUMQUADPTS).
Proof.
  intro H.
  destruct (in_dec Nat.eq_dec k ks) as [Hk|Hk]; [ | now left ].
  right. intro Hq.
  assert (Ht : visited NUMQUADPTS ks k q = true) by now apply visited_true.
  congruence.
Qed.

(** The state a run of updates leaves: at a visited point what the update
    of that point alone makes of the initial state, elsewhere the initial
    state. *)
Lemma update_elements_local ks s :
  NoDup (material_indices NUMQUADPTS E ks) ->
  (forall k q, visited NUMQUADPTS ks k q = true ->
     (forall c, devStressData (update_elements NUMQUADPTS E kin ks s) k q c
                = devStressData (update_at E kin k s q) k q c)
     /\ meanStress (update_elements NUMQUADPTS E kin ks s) (cmap k q)
        = meanStress (update_at E kin k s q) (cmap k q))
  /\ (forall k q c, visited NUMQUADPTS ks k q = false ->
        devStressData (update_elements NUMQUADPTS E kin ks s) k q c
        = devStressData s k q c)
  /\ (forall m, ~ In m (material_indices NUMQUADPTS E ks) ->
        meanStress (update_elements NUMQUADPTS E kin ks s) m = meanStress s m).
Proof.
  intro Hnd. split; [ | split ].
  - intros k q Hv. apply visited_true in Hv as [Hk Hq]. split.
    + intro c. apply update_elements_dev_at; trivial.
      exact (material_indices_NoDup_elements ks q Hnd Hq).
    + rewrite update_elements_mean_at by assumption.
      symmetry. apply UpdateStatePoint_mean_at.
  - intros k q c Hv. apply update_elements_dev_other. now apply visited_false.
  - intros m Hm. now apply update_elements_mean_other.
Qed.

End PointByPoint.

Section ConstitutiveKernelLaws.

Context {T : Type} {RT : Real64 T}.

Lemma ConstitutiveUpdateKernel_as_updates (NUMQUADPTS noElem : nat)
    (elemList : list nat) (b : kinematic_buffers T) (E : element_data T)
    (s : stress_state T) :
  ConstitutiveUpdateKernel NUMQUADPTS noElem elemList b E s
  = update_elements NUMQUADPTS E (stored_kinematics b) (firstn noElem elemList) s.
Proof. reflexivity. Qed.

Lemma constitutive_body_as_update (b : kinematic_buffers T) (E : element_data T)
    (k q : nat) (s : stress_state T) :
  constitutive_body b E k s q = update_at E (stored_kinematics b) k s q.
Proof. reflexivity. Qed.

Lemma flat_map_Permutation {A B : Type} (f : A -> list B) (l l' : list A) :
  Permutation l l' -> Permutation (flat_map f l) (flat_map f l').
Proof.
  induction 1 as [| x l l' _ IH | x y l | l l' l'' _ IH1 _ IH2]; cbn.
  - constructor.
  - now apply Permutation_app_head.
  - rewrite !app_assoc. apply Permutation_app_tail, Permutation_app_comm.
  - now transitivity (flat_map f l').
Qed.

Lemma visited_Permutation (NUMQUADPTS : nat) (ks ks' : list nat) (k q : nat) :
  Permutation ks ks' -> visited NUMQUADPTS ks k q = visited NUMQUADPTS ks' k q.
Proof.
  intro Hp.
  destruct (visited NUMQUADPTS ks k q) eqn:Hv; symmetry.
  - apply visited_true in Hv as [Hk Hq]. apply visited_true.
    split; trivial. exact (Permutation_in _ Hp Hk).
  - destruct (visited NUMQUADPTS ks' k q) eqn:Hv'; trivial.
    apply visited_true in Hv' as [Hk Hq].
    assert (Ht : visited NUMQUADPTS ks k q = true).
    { apply visited_true. split; trivial.
      exact (Permutation_in _ (Permutation_sym Hp) Hk). }
    congruence.
Qed.

End ConstitutiveKernelLaws.

(** X9. [ConstitutiveUpdateKernel] acts point by point: when the quadrature
    points it visits have pairwise distinct material indices, it leaves at
    each visited point the deviatoric components and the mean stress that the
    update of that point alone makes of the initial state; it never writes
    the deviatoric components of a point it does not visit, nor a mean stress
    whose index no visited point has (every arithmetic). *)
Theorem constitutive_kernel_acts_point_by_point
    (T : Type) (RT : Real64 T) (NUMQUADPTS noElem : nat) (elemList : list nat)
    (b : kinematic_buffers T) (E : element_data T) (s : stress_state T) :
  NoDup (material_indices NUMQUADPTS E (firstn noElem elemList)) ->
  let ks := firstn noElem elemList in
  let out := ConstitutiveUpdateKernel NUMQUADPTS noElem elemList b E s in
  (forall k q, visited NUMQUADPTS ks k q = true ->
     (forall c, devStressData out k q c
                = devStressData (constitutive_body b E k s q) k q c)
     /\ meanStress out (iconstitutiveMap E k q)
        = meanStress (constitutive_body b E k s q) (iconstitutiveMap E k q))
  /\ (forall k q c, visited NUMQUADPTS ks k q = false ->
        devStressData out k q c = devStressData s k q c)
  /\ (forall m, ~ In m (material_indices NUMQUADPTS E ks) ->
        meanStress out m = meanStress s m).
Proof.
  intros Hnd ks out. subst out.
  rewrite ConstitutiveUpdateKernel_as_updates.
  exact (update_elements_local NUMQUADPTS E (stored_kinematics b) ks s Hnd).
Qed.

(** The sixteen points of elements 0 and 1 have the material indices 0 to
    15. *)
Lemma NoDup_distinct_indices_listed :
  NoDup (material_indices 8 distinct_index_data [0; 1]).
Proof.
  vm_compute.
  repeat (constructor;
          [ cbn; intro H; repeat (destruct H as [H|H]; [ discriminate H | ]); exact H | ]).
  constructor.
Qed.

Lemma constitutive_kernel_acts_point_by_point_witness :
  meanStress (ConstitutiveUpdateKernel 8 2 [0; 1] unit_strain_buffers
                distinct_index_data zero_stress)
             (iconstitutiveMap distinct_index_data 1 3)
  = meanStress (constitutive_body unit_strain_buffers distinct_index_data 1
                  zero_stress 3)
               (iconstitutiveMap distinct_index_data 1 3).
Proof.
  refine (proj2 (proj1 (@constitutive_kernel_acts_point_by_point float _ 8 2 [0; 1]
                          unit_strain_buffers distinct_index_data zero_stress
                          NoDup_distinct_indices_listed) 1 3 _)).
  reflexivity.
Defined.

(** X10. With pairwise distinct material indices over the points visited,
    the stress arrays [ConstitutiveUpdateKernel] leaves do not depend on the
    order in which the elements are listed (every arithmetic, entry by
    entry). *)
Theorem constitutive_kernel_ignores_element_order
    (T : Type) (RT : Real64 T) (NUMQUADPTS : nat) (ks ks' : list nat)
    (b : kinematic_buffers T) (E : element_data T) (s : stress_state T) :
  Permutation ks ks' ->
  NoDup (material_indices NUMQUADPTS E ks) ->
  stress_agree
    (ConstitutiveUpdateKernel NUMQUADPTS (length ks) ks b E s)
    (ConstitutiveUpdateKernel NUMQUADPTS (length ks') ks' b E s).
Proof.
  intros Hp Hnd.
  rewrite !ConstitutiveUpdateKernel_as_updates, !firstn_all.
  assert (Hnd' : NoDup (material_indices NUMQUADPTS E ks')).
  { unfold material_indices.
    exact (Permutation_NoDup (flat_map_Permutation _ _ _ Hp) Hnd). }
  destruct (update_elements_local NUMQUADPTS E (stored_kinematics b) ks s Hnd)
    as (Hv & Hd & Hm).
  destruct (update_elements_local NUMQUADPTS E (stored_kinematics b) ks' s Hnd')
    as (Hv' & Hd' & Hm').
  split.
  - intros k q c.
    destruct (visited NUMQUADPTS ks k q) eqn:Hvis.
    + rewrite (proj1 (Hv k q Hvis)).
      rewrite (visited_Permutation NUMQUADPTS ks ks' k q Hp) in Hvis.
      now rewrite (proj1 (Hv' k q Hvis)).
    + rewrite (Hd k q c Hvis).
      rewrite (visited_Permutation NUMQUADPTS ks ks' k q Hp) in Hvis.
      now rewrite (Hd' k q c Hvis).
  - intro m.
    destruct (in_dec Nat.eq_dec m (material_indices NUMQUADPTS E ks)) as [Hin|Hin].
    + unfold material_indices in Hin.
      apply in_flat_map in Hin as (k & Hk & Hin).
      apply in_map_iff in Hin as (q & <- & Hq).
      assert (Hvis : visited NUMQUADPTS ks k q = true) by now apply visited_true.
      rewrite (proj2 (Hv k q Hvis)).
      rewrite (visited_Permutation NUMQUADPTS ks ks' k q Hp) in Hvis.
      now rewrite (proj2 (Hv' k q Hvis)).
    + rewrite (Hm m Hin). symmetry. apply Hm'.
      intro Hin'. apply Hin.
      exact (Permutation_in _ (Permutation_sym (flat_map_Permutation _ _ _ Hp)) Hin').
Qed.

Lemma constitutive_kernel_ignores_element_order_witness :
  stress_agree
    (ConstitutiveUpdateKernel 8 2 [0; 1] unit_strain_buffers distinct_index_data
       zero_stress)
    (ConstitutiveUpdateKernel 8 2 [1; 0] unit_strain_buffers distinct_index_data
       zero_stress).
Proof.
  apply (@constitutive_kernel_ignores_element_order float _ 8 [0; 1] [1; 0]
           unit_strain_buffers distinct_index_data zero_stress).
  - apply perm_swap.
  - exact NoDup_distinct_indices_listed.
Defined.

(** * The mean stress of a shared material index *)

Section SharedIndex.

Local Open Scope R_scope.

Variable NUMQUADPTS : nat.
Variable E : element_data R.
Variable kin : nat -> nat -> kinematics R.

Local Abbreviation cmap := (iconstitutiveMap E).
(** What point [p] adds to the mean stress of index [m]. *)
Local Abbreviation gain m :=
  (fun p : nat * nat =>
     if (cmap (fst p) (snd p) =? m)%nat
     then mtrace (kin_Dadt (kin (fst p) (snd p))) * ibulkModulus E else 0).

Lemma Rsum_app (l l' : list R) : Rsum (l ++ l') = Rsum l + Rsum l'.
Proof.
  unfold Rsum. induction l as [|x l IH]; cbn [app fold_right]; lra.
Qed.

Lemma update_at_mean (k q : nat) (s : stress_state R) (m : nat) :
  meanStress (update_at E kin k s q) m = meanStress s m + gain m (k, q).
Proof.
  cbn [fst snd]. unfold update_at. rewrite (Nat.eqb_sym (cmap k q) m).
  destruct (m =? cmap k q)%nat eqn:Hm.
  - apply Nat.eqb_eq in Hm. subst m. rewrite UpdateStatePoint_mean_at. r64. reflexivity.
  - apply Nat.eqb_neq in Hm. rewrite UpdateStatePoint_mean_other by assumption. lra.
Qed.

Lemma update_fold_mean_sum k qs : forall s m,
  meanStress (fold_left (update_at E kin k) qs s) m
  = meanStress s m + Rsum (map (gain m) (map (pair k) qs)).
Proof.
  induction qs as [|q qs IH]; intros s m; cbn [fold_left map].
  - unfold Rsum. cbn. lra.
  - rewrite IH, update_at_mean. unfold Rsum. cbn [fold_right]. lra.
Qed.

Lemma update_elements_mean_sum ks : forall s m,
  meanStress (update_elements NUMQUADPTS E kin ks s) m
  = meanStress s m + Rsum (map (gain m) (visited_points NUMQUADPTS ks)).
Proof.
  induction ks as [|k ks IH]; intros s m.
  - unfold Rsum. cbn. lra.
  - change (update_elements NUMQUADPTS E kin (k :: ks) s)
      with (update_elements NUMQUADPTS E kin ks (update_element NUMQUADPTS E kin s k)).
    rewrite IH. unfold update_element. rewrite update_fold_mean_sum.
    cbn [visited_points flat_map]. rewrite map_app, Rsum_app.
    fold (visited_points NUMQUADPTS ks). lra.
Qed.

End SharedIndex.

(** X11. Run one point after the other, [ConstitutiveUpdateKernel] leaves in
    [imeanStress[m]] its initial value plus the sum, over the visited points
    mapped to [m], of [trace(Dadt) * bulkModulus]: quadrature points that
    share a material index add up in the one entry (exact arithmetic, no
    condition on the constitutive map). *)
Theorem constitutive_kernel_sums_mean_stress_per_index
    (NUMQUADPTS noElem : nat) (elemList : list nat) (b : kinematic_buffers R)
    (E : element_data R) (s : stress_state R) (m : nat) :
  meanStress (ConstitutiveUpdateKernel NUMQUADPTS noElem elemList b E s) m
  = (meanStress s m
     + Rsum (map (fun p : nat * nat =>
                    if iconstitutiveMap E (fst p) (snd p) =? m
                    then mtrace (mbuild (Dadt_ptr b (fst p) (snd p))) * ibulkModulus E
                    else 0)
               (visited_points NUMQUADPTS (firstn noElem elemList))))%R.
Proof.
  rewrite ConstitutiveUpdateKernel_as_updates.
  apply update_elements_mean_sum.
Qed.

(** * What the kinematic kernels leave in the intermediate storage *)

(** A loop whose steps either overwrite what is observed with one and the
    same value or leave it alone. *)
Section OverwritingLoops.

Variables (S A V : Type) (step : S -> A -> S) (view : S -> V)
          (inside : A -> bool) (val : V).
Hypothesis view_step : forall s a,
  view (step s a) = if inside a then val else view s.

Lemma fold_overwrites (l : list A) : forall s,
  view (fold_left step l s) = if existsb inside l then val else view s.
Proof.
  induction l as [|a l IH]; intro s; cbn [fold_left existsb]; trivial.
  rewrite IH, view_step.
  destruct (inside a), (existsb inside l); reflexivity.
Qed.

End OverwritingLoops.

Lemma existsb_and_const {A : Type} (f : A -> bool) (g : bool) (l : list A) :
  existsb (fun a => f a && g) l = existsb f l && g.
Proof.
  induction l as [|a l IH]; cbn [existsb]; trivial.
  rewrite IH. destruct (f a), (existsb f l), g; reflexivity.
Qed.

Lemma existsb_eqb_seq (q n : nat) : existsb (Nat.eqb q) (seq 0 n) = (q <? n).
Proof.
  destruct (q <? n) eqn:Hq.
  - apply Nat.ltb_lt in Hq. apply existsb_exists. exists q. split.
    + apply in_seq. lia.
    + apply Nat.eqb_refl.
  - apply Nat.ltb_ge in Hq.
    destruct (existsb (Nat.eqb q) (seq 0 n)) eqn:He; trivial.
    apply existsb_exists in He as (x & Hx & Hqx).
    apply Nat.eqb_eq in Hqx. subst x. apply in_seq in Hx. lia.
Qed.

Lemma existsb_Permutation {A : Type} (f : A -> bool) (l l' : list A) :
  Permutation l l' -> existsb f l = existsb f l'.
Proof.
  induction 1 as [| x l l' _ IH | x y l | l l' l'' _ IH1 _ IH2]; cbn [existsb].
  - reflexivity.
  - now rewrite IH.
  - destruct (f x), (f y); reflexivity.
  - now rewrite IH1.
Qed.

Section WrittenStorage.

Context {T : Type} {RT : Real64 T}.
Variable kin : nat -> nat -> kinematics T.
Variable NUMQUADPTS : nat.

(** The quadrature loop and the element loop of a kinematic kernel whose
    locals at point [(k,q)] are [kin k q]. *)
Local Abbreviation write_points k :=
  (fun b q => write_kinematics b k q (kin k q)).
Local Abbreviation write_elements :=
  (fun b k => fold_left (write_points k) (seq 0 NUMQUADPTS) b).

(** The three tensor entries [(r,c)] of point [(k,q)]. *)
Local Abbreviation entries b k q r c :=
  (Dadt_ptr b k q r c, Rot_ptr b k q r c, Finv_ptr b k q r c).
Local Abbreviation kin_entries k q r c :=
  (mget (kin_Dadt (kin k q)) r c, mget (kin_Rot (kin k q)) r c,
   mget (kin_Finv (kin k q)) r c).

Lemma write_entries (b : kinematic_buffers T) k q k' q' r c :
  entries (write_kinematics b k q (kin k q)) k' q' r c
  = if (q' =? q) && ((k' =? k) && ((r <? LOCAL_DIM) && (c <? LOCAL_DIM)))
    then kin_entries k' q' r c else entries b k' q' r c.
Proof.
  unfold write_kinematics, store_mat. cbn [Dadt_ptr Rot_ptr Finv_ptr].
  destruct (k' =? k) eqn:Hk, (q' =? q) eqn:Hq; cbn [andb]; trivial.
  apply Nat.eqb_eq in Hk, Hq. subst.
  destruct (r <? LOCAL_DIM), (c <? LOCAL_DIM); reflexivity.
Qed.

Lemma write_detF (b : kinematic_buffers T) k q k' q' :
  detF_ptr (write_kinematics b k q (kin k q)) k' q'
  = if (q' =? q) && (k' =? k) then kin_detF (kin k' q') else detF_ptr b k' q'.
Proof.
  unfold write_kinematics, store2. cbn [detF_ptr].
  destruct (k' =? k) eqn:Hk, (q' =? q) eqn:Hq; cbn [andb]; trivial.
  apply Nat.eqb_eq in Hk, Hq. now subst.
Qed.

Lemma written_entries ks (b : kinematic_buffers T) k' q' r c :
  entries (fold_left write_elements ks b) k' q' r c
  = if visited NUMQUADPTS ks k' q' && (r <? LOCAL_DIM) && (c <? LOCAL_DIM)
    then kin_entries k' q' r c else entries b k' q' r c.
Proof.
  rewrite (fold_overwrites _ _ _ write_elements
             (fun b => entries b k' q' r c)
             (fun k => (k' =? k)
                       && ((q' <? NUMQUADPTS)
                           && ((r <? LOCAL_DIM) && (c <? LOCAL_DIM))))
             (kin_entries k' q' r c)).
  - rewrite existsb_and_const. unfold visited.
    destruct (existsb (Nat.eqb k') ks), (q' <? NUMQUADPTS), (r <? LOCAL_DIM),
      (c <? LOCAL_DIM); reflexivity.
  - intros s k.
    rewrite (fold_overwrites _ _ _ (write_points k)
               (fun b => entries b k' q' r c)
               (fun q => (q' =? q)
                         && ((k' =? k) && ((r <? LOCAL_DIM) && (c <? LOCAL_DIM))))
               (kin_entries k' q' r c)).
    + rewrite existsb_and_const, existsb_eqb_seq.
      destruct (k' =? k), (q' <? NUMQUADPTS), (r <? LOCAL_DIM), (c <? LOCAL_DIM);
        reflexivity.
    + intros s' q. apply write_entries.
Qed.

Lemma written_detF ks (b : kinematic_buffers T) k' q' :
  detF_ptr (fold_left write_elements ks b) k' q'
  = if visited NUMQUADPTS ks k' q' then kin_detF (kin k' q') else detF_ptr b k' q'.
Proof.
  rewrite (fold_overwrites _ _ _ write_elements
             (fun b => detF_ptr b k' q')
             (fun k => (k' =? k) && (q' <? NUMQUADPTS))
             (kin_detF (kin k' q'))).
  - now rewrite existsb_and_const.
  - intros s k.
    rewrite (fold_overwrites _ _ _ (write_points k)
               (fun b => detF_ptr b k' q')
               (fun q => (q' =? q) && (k' =? k))
               (kin_detF (kin k' q'))).
    + rewrite existsb_and_const, existsb_eqb_seq.
      destruct (k' =? k), (q' <? NUMQUADPTS); reflexivity.
    + intros s' q. apply write_detF.
Qed.

(** The two loops leave the storage [written_buffers] describes. *)
Lemma write_loops_written ks (b : kinematic_buffers T) :
  buffers_agree (fold_left write_elements ks b) (written_buffers kin NUMQUADPTS ks b).
Proof.
  intros k q. split.
  - rewrite written_detF. reflexivity.
  - intros r c.
    pose proof (written_entries ks b k q r c) as H.
    unfold written_buffers. cbn [Dadt_ptr Rot_ptr Finv_ptr].
    destruct (visited NUMQUADPTS ks k q && (r <? LOCAL_DIM) && (c <? LOCAL_DIM));
      inversion H as [[H1 H2 H3]]; now rewrite H1, H2, H3.
Qed.

(** What is written does not depend on the order of the elements, on their
    repetition, or on what the visited entries held before. *)
Lemma written_buffers_Permutation ks ks' (b : kinematic_buffers T) :
  Permutation ks ks' ->
  buffers_agree (written_buffers kin NUMQUADPTS ks b)
                (written_buffers kin NUMQUADPTS ks' b).
Proof.
  intros Hp k q.
  assert (Hv : visited NUMQUADPTS ks k q = visited NUMQUADPTS ks' k q).
  { unfold visited. now rewrite (existsb_Permutation _ _ _ Hp). }
  unfold written_buffers. cbn [Dadt_ptr Rot_ptr detF_ptr Finv_ptr].
  rewrite Hv. repeat split.
Qed.

Lemma written_buffers_again ks (b b' : kinematic_buffers T) :
  buffers_agree b' (written_buffers kin NUMQUADPTS ks b) ->
  buffers_agree (written_buffers kin NUMQUADPTS ks b')
                (written_buffers kin NUMQUADPTS ks b).
Proof.
  intros H k q. destruct (H k q) as [Hd Ht].
  unfold written_buffers in *. cbn [Dadt_ptr Rot_ptr detF_ptr Finv_ptr] in *.
  split.
  - destruct (visited NUMQUADPTS ks k q); trivial.
  - intros r c. destruct (Ht r c) as (H1 & H2 & H3).
    destruct (visited NUMQUADPTS ks k q && (r <? LOCAL_DIM) && (c <? LOCAL_DIM));
      repeat split; trivial.
Qed.

Lemma buffers_agree_trans (b1 b2 b3 : kinematic_buffers T) :
  buffers_agree b1 b2 -> buffers_agree b2 b3 -> buffers_agree b1 b3.
Proof.
  intros H12 H23 k q. destruct (H12 k q) as [Hd Ht], (H23 k q) as [Hd' Ht'].
  split; [ congruence | ].
  intros r c. destruct (Ht r c) as (H1 & H2 & H3), (Ht' r c) as (H1' & H2' & H3').
  repeat split; congruence.
Qed.

Lemma buffers_agree_sym (b1 b2 : kinematic_buffers T) :
  buffers_agree b1 b2 -> buffers_agree b2 b1.
Proof.
  intros H k q. destruct (H k q) as [Hd Ht]. split; [ congruence | ].
  intros r c. destruct (Ht r c) as (H1 & H2 & H3). repeat split; congruence.
Qed.

(** At a visited point the storage read back is the locals of the point. *)
Lemma written_point_holds ks (b b' : kinematic_buffers T) k q :
  buffers_agree b' (written_buffers kin NUMQUADPTS ks b) ->
  visited NUMQUADPTS ks k q = true ->
  mbuild (Dadt_ptr b' k q) = kin_Dadt (kin k q)
  /\ mbuild (Rot_ptr b' k q) = kin_Rot (kin k q)
  /\ detF_ptr b' k q = kin_detF (kin k q)
  /\ mbuild (Finv_ptr b' k q) = kin_Finv (kin k q).
Proof.
  intros H Hv. destruct (H k q) as [Hd Ht].
  unfold written_buffers in *. cbn [Dadt_ptr Rot_ptr detF_ptr Finv_ptr] in *.
  rewrite Hv in *. cbn [andb] in Ht.
  assert (HD : forall r c, r < 3 -> c < 3 ->
                 Dadt_ptr b' k q r c = mget (kin_Dadt (kin k q)) r c
                 /\ Rot_ptr b' k q r c = mget (kin_Rot (kin k q)) r c
                 /\ Finv_ptr b' k q r c = mget (kin_Finv (kin k q)) r c).
  { intros r c Hr Hc. specialize (Ht r c).
    apply Nat.ltb_lt in Hr, Hc. unfold LOCAL_DIM in Ht.
    rewrite Hr, Hc in Ht. exact Ht. }
  repeat split; trivial;
    rewrite <- mbuild_mget; unfold mbuild; f_equal; apply HD; lia.
Qed.

End WrittenStorage.

(** X12. [ArrayOfObjects_KinematicKernel] leaves in the intermediate storage,
    at every quadrature point of the first [noElem] listed elements, the
    determinant and the nine entries of [Finv], [Rot] and [Dadt] it computes
    for that point from the nodal fields; every other entry keeps its value:
    the kernel reads no entry of the storage, and an element listed twice is
    written twice with the same values (every arithmetic). *)
Theorem AoO_kinematic_kernel_fills_the_visited_points
    (T : Type) (RT : Real64 T) (NODESPERELEM NUMQUADPTS noElem : nat)
    (elemList : list nat) (dt : T) (E : element_data T) (fl : ArrOfObj.fields)
    (b : kinematic_buffers T) :
  buffers_agree
    (ArrOfObj.ArrayOfObjects_KinematicKernel NODESPERELEM NUMQUADPTS noElem
       elemList dt E fl b)
    (written_buffers (ArrOfObj.kinematics_at NODESPERELEM E fl dt) NUMQUADPTS
       (firstn noElem elemList) b).
Proof.
  exact (write_loops_written (ArrOfObj.kinematics_at NODESPERELEM E fl dt)
           NUMQUADPTS (firstn noElem elemList) b).
Qed.

(** X13. [ObjectOfArrays_KinematicKernel] leaves in the intermediate storage,
    at every quadrature point of the first [noElem] listed elements, the
    determinant and the nine entries of [Finv], [Rot] and [Dadt] it computes
    for that point from the nodal fields; every other entry keeps its value
    (every arithmetic). *)
Theorem OoA_kinematic_kernel_fills_the_visited_points
    (T : Type) (RT : Real64 T) (NODESPERELEM NUMQUADPTS noElem : nat)
    (elemList : list nat) (dt : T) (E : element_data T) (fl : ObjOfArr.fields)
    (b : kinematic_buffers T) :
  buffers_agree
    (ObjectOfArrays_KinematicKernel NODESPERELEM NUMQUADPTS noElem elemList dt E
       fl b)
    (written_buffers (ObjOfArr.kinematics_at NODESPERELEM E fl dt) NUMQUADPTS
       (firstn noElem elemList) b).
Proof.
  exact (write_loops_written (ObjOfArr.kinematics_at NODESPERELEM E fl dt)
           NUMQUADPTS (firstn noElem elemList) b).
Qed.

(** X14. Both kinematic kernels leave the same storage whatever the order in
    which the elements are listed, and a second run over the same elements
    changes nothing (every arithmetic, entry by entry). *)
Theorem kinematic_kernels_ignore_order_and_repetition
    (T : Type) (RT : Real64 T) (NODESPERELEM NUMQUADPTS : nat)
    (ks ks' : list nat) (dt : T) (E : element_data T)
    (flA : ArrOfObj.fields) (flO : ObjOfArr.fields) (b : kinematic_buffers T) :
  Permutation ks ks' ->
  let runA l := ArrOfObj.ArrayOfObjects_KinematicKernel NODESPERELEM NUMQUADPTS
                  (length l) l dt E flA in
  let runO l := ObjectOfArrays_KinematicKernel NODESPERELEM NUMQUADPTS
                  (length l) l dt E flO in
  buffers_agree (runA ks b) (runA ks' b)
  /\ buffers_agree (runA ks' (runA ks b)) (runA ks b)
  /\ buffers_agree (runO ks b) (runO ks' b)
  /\ buffers_agree (runO ks' (runO ks b)) (runO ks b).
Proof.
  intros Hp runA runO.
  assert (Hgen : forall kin : nat -> nat -> kinematics T,
            let run l b := fold_left
                  (fun b k => fold_left (fun b q => write_kinematics b k q (kin k q))
                                (seq 0 NUMQUADPTS) b) l b in
            buffers_agree (run ks b) (run ks' b)
            /\ buffers_agree (run ks' (run ks b)) (run ks b)).
  { intros kin run.
    pose proof (write_loops_written kin NUMQUADPTS ks b) as H1.
    pose proof (write_loops_written kin NUMQUADPTS ks' b) as H2.
    pose proof (write_loops_written kin NUMQUADPTS ks' (run ks b)) as H3.
    pose proof (written_buffers_Permutation kin NUMQUADPTS ks ks' b Hp) as H4.
    fold (run ks b) in H1. fold (run ks' b) in H2. fold (run ks' (run ks b)) in H3.
    split.
    - eapply buffers_agree_trans; [ exact H1 | ].
      eapply buffers_agree_trans; [ exact H4 | ].
      now apply buffers_agree_sym.
    - eapply buffers_agree_trans; [ exact H3 | ].
      eapply buffers_agree_trans;
        [ apply written_buffers_again;
          eapply buffers_agree_trans; [ exact H1 | exact H4 ] | ].
      eapply buffers_agree_trans; [ | apply buffers_agree_sym; exact H1 ].
      now apply buffers_agree_sym. }
  subst runA runO.
  unfold ArrOfObj.ArrayOfObjects_KinematicKernel, ObjectOfArrays_KinematicKernel.
  rewrite !firstn_all.
  destruct (Hgen (ArrOfObj.kinematics_at NODESPERELEM E flA dt)) as [HA1 HA2].
  destruct (Hgen (ObjOfArr.kinematics_at NODESPERELEM E flO dt)) as [HO1 HO2].
  repeat split; first [ exact (proj1 (HA1 _ _)) | exact (proj1 (HA2 _ _))
                      | exact (proj1 (HO1 _ _)) | exact (proj1 (HO2 _ _))
                      | apply HA1 | apply HA2 | apply HO1 | apply HO2 ].
Qed.

Lemma kinematic_kernels_ignore_order_and_repetition_witness :
  buffers_agree
    (ArrOfObj.ArrayOfObjects_KinematicKernel 8 8 2 [0; 1] 1%float
       distinct_index_data stretch_fields zero_buffers)
    (ArrOfObj.ArrayOfObjects_KinematicKernel 8 8 2 [1; 0] 1%float
       distinct_index_data stretch_fields zero_buffers).
Proof.
  exact (proj1 (@kinematic_kernels_ignore_order_and_repetition float _ 8 8
                  [0; 1] [1; 0] 1%float distinct_index_data stretch_fields
                  inverted_fields zero_buffers (perm_swap 1 0 []))).
Defined.

(** * The split kernels of the object-of-arrays layout *)

Section ReadingWrittenStorage.

Context {T : Type} {RT : Real64 T}.
Variable NUMQUADPTS : nat.
Variable E : element_data T.
Variable kin : nat -> nat -> kinematics T.

Lemma In_visited ks k q :
  In k ks -> In q (seq 0 NUMQUADPTS) -> visited NUMQUADPTS ks k q = true.
Proof.
  intros Hk Hq. unfold visited. apply andb_true_iff. split.
  - apply existsb_exists. exists k. split; trivial. apply Nat.eqb_refl.
  - apply Nat.ltb_lt. apply in_seq in Hq. lia.
Qed.

(** On storage that holds the locals [kin] at the visited points, the
    constitutive kernel is the run of the updates with those locals. *)
Lemma constitutive_kernel_on_written ks (b0 b : kinematic_buffers T) s :
  buffers_agree b (written_buffers kin NUMQUADPTS ks b0) ->
  fold_left (fun s k => fold_left (constitutive_body b E k) (seq 0 NUMQUADPTS) s) ks s
  = update_elements NUMQUADPTS E kin ks s.
Proof.
  intro H. unfold update_elements.
  apply fold_left_ext_in. intros s' k Hk. unfold update_element.
  apply fold_left_ext_in. intros s'' q Hq.
  destruct (written_point_holds kin NUMQUADPTS ks b0 b k q H (In_visited ks k q Hk Hq))
    as (Hd & Hr & _ & _).
  rewrite constitutive_body_UpdateStatePoint. unfold update_at.
  now rewrite Hd, Hr.
Qed.

End ReadingWrittenStorage.

Section ObjectOfArraysSplitRun.

Context {T : Type} {RT : Real64 T}.
Variable NODESPERELEM : nat.
Variable NUMQUADPTS : nat.
Variable E : element_data T.
Variable fl : ObjOfArr.fields (T := T).
Variable dt : T.

Local Abbreviation cmap := (iconstitutiveMap E).
Local Abbreviation kinO := (ObjOfArr.kinematics_at NODESPERELEM E fl dt).
Local Abbreviation bodyO k :=
  (ObjOfArr.quadrature_body NODESPERELEM E fl dt (@UpdateStatePoint T RT) k
     (ObjOfArr.GlobalToLocal (ObjOfArr.nodeList NODESPERELEM E k) (ObjOfArr.iu fl))
     (ObjOfArr.GlobalToLocal (ObjOfArr.nodeList NODESPERELEM E k) (ObjOfArr.iuhat fl))).
(** The integration of point [(k,q)] with the stress read from [S]. *)
Local Abbreviation integO S k :=
  (fun f q =>
     ObjOfArr.Integrate NODESPERELEM f (idetJ E k q) (kin_detF (kinO k q))
       (kin_Finv (kinO k q)) (TotalStress S k q (cmap k q)) fl k q).
(** The force accumulation of the integration kernel, with the stress read
    from [S] and the kinematic locals recomputed. *)
Local Abbreviation integrate_allO S :=
  (fun acc k =>
     ObjOfArr.AddLocalToGlobal NODESPERELEM (ObjOfArr.nodeList NODESPERELEM E k)
       (fold_left (integO S k) (seq 0 NUMQUADPTS) (@ObjOfArr.f_local_zero T RT)) acc).

Lemma OoA_quadrature_fold_split k qs : forall s f,
  NoDup (map (cmap k) qs) ->
  fold_left (bodyO k) qs (s, f)
  = (fold_left (update_at E kinO k) qs s,
     fold_left (integO (fold_left (update_at E kinO k) qs s) k) qs f).
Proof.
  induction qs as [|q qs IH]; intros s f Hnd; cbn [fold_left]; trivial.
  cbn in Hnd. inversion Hnd as [|? ? Hnotin Hnd']; subst.
  unfold ObjOfArr.quadrature_body at 2. cbn [fst snd].
  rewrite IH by assumption. f_equal. f_equal. f_equal.
  symmetry. now apply update_fold_TotalStress.
Qed.

Lemma OoA_monolithic_split ks : forall s acc,
  NoDup (material_indices NUMQUADPTS E ks) ->
  fold_left (ObjOfArr.element_body NODESPERELEM NUMQUADPTS E fl dt
               (@UpdateStatePoint T RT)) ks (s, acc)
  = (update_elements NUMQUADPTS E kinO ks s,
     fold_left (integrate_allO (update_elements NUMQUADPTS E kinO ks s)) ks acc).
Proof.
  induction ks as [|k ks IH]; intros s acc Hnd; cbn [fold_left]; trivial.
  cbn in Hnd. apply NoDup_app_remove_l in Hnd as Hnd'.
  unfold ObjOfArr.element_body at 2. cbn [fst snd].
  unfold ObjOfArr.quadrature_loop.
  assert (Hk : NoDup (map (cmap k) (seq 0 NUMQUADPTS))).
  { now apply NoDup_app_remove_r in Hnd. }
  rewrite OoA_quadrature_fold_split by assumption. cbn [fst snd].
  rewrite IH by assumption.
  set (S1 := fold_left (update_at E kinO k) (seq 0 NUMQUADPTS) s).
  change (update_elements NUMQUADPTS E kinO (k :: ks) s)
    with (update_elements NUMQUADPTS E kinO ks S1).
  f_equal. f_equal. f_equal.
  apply fold_left_ext_in. intros f q Hq. f_equal.
  symmetry.
  apply update_elements_TotalStress.
  intro Hin.
  assert (Hin1 : In (cmap k q) (map (cmap k) (seq 0 NUMQUADPTS)))
    by exact (in_map (cmap k) _ _ Hq).
  exact (NoDup_app_disjoint _ _ _ Hnd Hin1 Hin).
Qed.

(** On storage that holds the locals at the visited points, the integration
    kernel accumulates what the recomputed locals give. *)
Lemma OoA_integration_kernel_on_written ks (b0 b : kinematic_buffers T) S acc :
  buffers_agree b (written_buffers kinO NUMQUADPTS ks b0) ->
  fold_left
    (fun acc k =>
       ObjOfArr.AddLocalToGlobal NODESPERELEM (ObjOfArr.nodeList NODESPERELEM E k)
         (fold_left (OoA_integration_body NODESPERELEM E fl b S k)
            (seq 0 NUMQUADPTS) (@ObjOfArr.f_local_zero T RT)) acc)
    ks acc
  = fold_left (integrate_allO S) ks acc.
Proof.
  intro H.
  apply fold_left_ext_in. intros acc' k Hk. f_equal.
  apply fold_left_ext_in. intros f q Hq.
  destruct (written_point_holds kinO NUMQUADPTS ks b0 b k q H
              (In_visited NUMQUADPTS ks k q Hk Hq)) as (_ & _ & Hd & Hf).
  unfold OoA_integration_body, OoA_Integrate_stored.
  change (mbuild (fun r c => Finv_ptr b k q r c)) with (mbuild (Finv_ptr b k q)).
  now rewrite Hd, Hf.
Qed.

(** The three split kernels in closed form: the stress after the run of the
    updates, and the forces integrated with that stress; the initial storage
    does not occur. *)
Lemma OoA_split_phase_closed noElem elemList (b : kinematic_buffers T) s acc :
  let ks := firstn noElem elemList in
  OoA_split_phase NODESPERELEM NUMQUADPTS noElem elemList dt E fl b (s, acc)
  = (update_elements NUMQUADPTS E kinO ks s,
     fold_left (integrate_allO (update_elements NUMQUADPTS E kinO ks s)) ks acc).
Proof.
  intro ks. unfold OoA_split_phase. cbn [fst snd].
  pose proof (write_loops_written kinO NUMQUADPTS ks b) as Hb.
  change (fold_left _ ks b)
    with (ObjectOfArrays_KinematicKernel NODESPERELEM NUMQUADPTS noElem elemList
            dt E fl b) in Hb.
  set (b' := ObjectOfArrays_KinematicKernel NODESPERELEM NUMQUADPTS noElem elemList
               dt E fl b) in *.
  assert (Hs : ConstitutiveUpdateKernel NUMQUADPTS noElem elemList b' E s
               = update_elements NUMQUADPTS E kinO ks s).
  { unfold ConstitutiveUpdateKernel. fold ks.
    exact (constitutive_kernel_on_written NUMQUADPTS E kinO ks b b' s Hb). }
  rewrite Hs. f_equal.
  unfold ObjectOfArrays_IntegrationKernel. fold ks.
  exact (OoA_integration_kernel_on_written ks b b' _ acc Hb).
Qed.

End ObjectOfArraysSplitRun.

Section ArrayOfObjectsSplitRun.

Context {T : Type} {RT : Real64 T}.
Variable NODESPERELEM : nat.
Variable NUMQUADPTS : nat.
Variable E : element_data T.
Variable fl : ArrOfObj.fields (T := T).
Variable dt : T.

Local Abbreviation kinA := (ArrOfObj.kinematics_at NODESPERELEM E fl dt).

(** The stress and the forces of the three split kernels depend on the
    initial storage through nothing. *)
Lemma AoO_split_phase_storage noElem elemList (b1 b2 : kinematic_buffers T) sa :
  ArrOfObj.split_phase NODESPERELEM NUMQUADPTS noElem elemList dt E fl b1 sa
  = ArrOfObj.split_phase NODESPERELEM NUMQUADPTS noElem elemList dt E fl b2 sa.
Proof.
  destruct sa as [s acc]. unfold ArrOfObj.split_phase. cbn [fst snd].
  set (ks := firstn noElem elemList).
  assert (Hh : forall b k q, In k ks -> In q (seq 0 NUMQUADPTS) ->
            buffers_hold NODESPERELEM E fl dt
              (ArrOfObj.ArrayOfObjects_KinematicKernel NODESPERELEM NUMQUADPTS
                 noElem elemList dt E fl b) k q).
  { intros b k q Hk Hq. apply kinematic_kernel_holds. left. now split. }
  assert (Hs : forall b,
            ConstitutiveUpdateKernel NUMQUADPTS noElem elemList
              (ArrOfObj.ArrayOfObjects_KinematicKernel NODESPERELEM NUMQUADPTS
                 noElem elemList dt E fl b) E s
            = update_elements NUMQUADPTS E kinA ks s).
  { intro b. unfold ConstitutiveUpdateKernel. fold ks.
    apply constitutive_kernel_updates. apply Hh. }
  rewrite !Hs. f_equal.
  unfold ArrOfObj.ArrayOfObjects_IntegrationKernel. fold ks.
  etransitivity.
  - apply integration_kernel_integrates. apply Hh.
  - symmetry. apply integration_kernel_integrates. apply Hh.
Qed.

End ArrayOfObjectsSplitRun.

(** X15. The three split kernels of the object-of-arrays layout in sequence
    leave the stress arrays exactly as one run of [ObjectOfArraysKernel] with
    the linear-elastic update does, for every input and in every arithmetic;
    they leave the nodal force/acceleration arrays exactly as it does
    whenever the quadrature points visited have pairwise distinct
    material-instance indices. *)
Theorem OoA_split_kernels_match_monolithic
    (T : Type) (RT : Real64 T) (NODESPERELEM NUMQUADPTS noElem : nat)
    (elemList : list nat) (dt : T) (E : element_data T) (fl : ObjOfArr.fields)
    (b : kinematic_buffers T) (sa : stress_state T * xyz T) :
  let mono :=
    ObjOfArr.ObjectOfArraysKernel NODESPERELEM NUMQUADPTS noElem elemList dt E fl
      (@UpdateStatePoint T RT) sa in
  let split :=
    OoA_split_phase NODESPERELEM NUMQUADPTS noElem elemList dt E fl b sa in
  fst split = fst mono
  /\ (NoDup (material_indices NUMQUADPTS E (firstn noElem elemList)) ->
      snd split = snd mono).
Proof.
  intros mono split. destruct sa as [s acc].
  subst split. rewrite OoA_split_phase_closed. cbn [fst snd].
  subst mono. unfold ObjOfArr.ObjectOfArraysKernel.
  split.
  - symmetry. apply OoA_monolithic_fst.
  - intro Hnd. now rewrite OoA_monolithic_split by exact Hnd.
Qed.

(** The sixteen points of elements 0 and 1 have the material indices 0 to
    15. *)
Lemma NoDup_distinct_indices_pair :
  NoDup (material_indices 8 distinct_index_data (firstn 2 [0; 1])).
Proof.
  vm_compute.
  repeat (constructor;
          [ cbn; intro H; repeat (destruct H as [H|H]; [ discriminate H | ]); exact H | ]).
  constructor.
Qed.

Lemma OoA_split_kernels_match_monolithic_witness :
  snd (OoA_split_phase 8 8 2 [0; 1] 1%float distinct_index_data inverted_fields
         zero_buffers (zero_stress, zero_xyz))
  = snd (ObjOfArr.ObjectOfArraysKernel 8 8 2 [0; 1] 1%float distinct_index_data
           inverted_fields (@UpdateStatePoint float _) (zero_stress, zero_xyz)).
Proof.
  apply (proj2 (@OoA_split_kernels_match_monolithic float _ 8 8 2 [0; 1] 1%float
                  distinct_index_data inverted_fields zero_buffers
                  (zero_stress, zero_xyz))).
  exact NoDup_distinct_indices_pair.
Defined.

(** X16. The intermediate storage needs no initialisation: in both layouts
    the stress arrays and the nodal forces the three split kernels leave are
    the same from any two initial contents of [Dadt_ptr], [Rot_ptr],
    [detF_ptr] and [Finv_ptr]; every entry the constitutive and the
    integration kernel read has been written by the kinematic kernel (every
    arithmetic). *)
Theorem split_kernels_need_no_initial_storage
    (T : Type) (RT : Real64 T) (NODESPERELEM NUMQUADPTS noElem : nat)
    (elemList : list nat) (dt : T) (E : element_data T)
    (flA : ArrOfObj.fields) (flO : ObjOfArr.fields)
    (b1 b2 : kinematic_buffers T)
    (saA : stress_state T * (nat -> nat -> T)) (saO : stress_state T * xyz T) :
  ArrOfObj.split_phase NODESPERELEM NUMQUADPTS noElem elemList dt E flA b1 saA
  = ArrOfObj.split_phase NODESPERELEM NUMQUADPTS noElem elemList dt E flA b2 saA
  /\ OoA_split_phase NODESPERELEM NUMQUADPTS noElem elemList dt E flO b1 saO
     = OoA_split_phase NODESPERELEM NUMQUADPTS noElem elemList dt E flO b2 saO.
Proof.
  split.
  - apply AoO_split_phase_storage.
  - destruct saO as [s acc]. now rewrite !OoA_split_phase_closed.
Qed.

(** * A step without displacement increment *)

Section NoIncrement.

Local Open Scope R_scope.

Lemma velocity_gradient_of_no_increment (dUdX : mat3 R) (dt : R) :
  velocity_gradient dUdX mzero dt = mzero.
Proof.
  unfold velocity_gradient.
  generalize (Finverse (midpoint_gradient dUdX mzero)). intro Fi.
  destruct Fi. unfold scaled_increment. munfold. r64. f_equal; ring.
Qed.

Lemma gradients_of_no_increment (dUdX : mat3 R) :
  midpoint_gradient dUdX mzero = end_of_step_gradient dUdX mzero.
Proof. destruct dUdX. munfold. r64. f_equal; ring. Qed.

Lemma HughesWinget_of_zero (dt : R) :
  HughesWinget (T := R) mzero dt = (midentity, mzero).
Proof.
  unfold HughesWinget.
  match goal with
  | |- context [Finverse ?A] =>
      assert (HI : A = midentity) by (munfold; r64; f_equal; ring)
  end.
  rewrite HI, Finverse_identity.
  f_equal; munfold; r64; f_equal; ring.
Qed.

Variable NUMQUADPTS : nat.
Variable E : element_data R.
Variable kin : nat -> nat -> kinematics R.

Lemma update_fold_at_rest k qs : forall s,
  (forall q, In q qs ->
     kin_Dadt (kin k q) = mzero /\ kin_Rot (kin k q) = midentity) ->
  stress_agree (fold_left (update_at E kin k) qs s) s.
Proof.
  induction qs as [|q qs IH]; intros s H; cbn [fold_left].
  - split; reflexivity.
  - destruct (IH (update_at E kin k s q)) as [Hd Hm].
    { intros; apply H; now right. }
    destruct (H q (or_introl eq_refl)) as [HD HR].
    unfold update_at in Hd, Hm |- *. rewrite HD, HR in *.
    destruct (UpdateStatePoint_at_rest (iconstitutiveMap E k q) q k s
                (ishearModulus E) (ibulkModulus E)) as [Hd1 Hm1].
    split.
    + intros k' q' c. now rewrite Hd, Hd1.
    + intro m. now rewrite Hm, Hm1.
Qed.

Lemma update_elements_at_rest ks : forall s,
  (forall k q, In k ks -> In q (seq 0 NUMQUADPTS) ->
     kin_Dadt (kin k q) = mzero /\ kin_Rot (kin k q) = midentity) ->
  stress_agree (update_elements NUMQUADPTS E kin ks s) s.
Proof.
  induction ks as [|k ks IH]; intros s H.
  - split; reflexivity.
  - change (update_elements NUMQUADPTS E kin (k :: ks) s)
      with (update_elements NUMQUADPTS E kin ks (update_element NUMQUADPTS E kin s k)).
    destruct (IH (update_element NUMQUADPTS E kin s k)) as [Hd Hm].
    { intros; apply H; trivial. now right. }
    destruct (update_fold_at_rest k (seq 0 NUMQUADPTS) s) as [Hd1 Hm1].
    { intros; apply H; trivial. now left. }
    unfold update_element in *.
    split.
    + intros k' q' c. now rewrite Hd, Hd1.
    + intro m. now rewrite Hm, Hm1.
Qed.

End NoIncrement.

(** X17. A step without displacement increment leaves the stress as it was,
    whatever the displacement (exact arithmetic): when the incremental
    displacement is zero at the nodes of the elements visited, at each of
    their quadrature points the velocity gradient [L] and [Dadt] are zero,
    [Rot] is the identity and the midpoint gradient is the end-of-step
    gradient, and [ObjectOfArraysKernel] with the linear-elastic update
    leaves every entry of the stress arrays unchanged.  The conditions on
    [dt] and on the determinant are those under which the code's [1.0/dt]
    and [Finverse] divide by a non-zero number. *)
Theorem step_without_increment_keeps_the_stress
    (NODESPERELEM NUMQUADPTS noElem : nat) (elemList : list nat) (dt : R)
    (E : element_data R) (fl : ObjOfArr.fields)
    (sa : stress_state R * xyz R) :
  dt <> 0%R ->
  (forall k a, In k (firstn noElem elemList) -> a < NODESPERELEM ->
     let n := ObjOfArr.nodeList NODESPERELEM E k a in
     arr_x (ObjOfArr.iuhat fl) n = 0%R /\ arr_y (ObjOfArr.iuhat fl) n = 0%R
     /\ arr_z (ObjOfArr.iuhat fl) n = 0%R) ->
  (forall k q, In k (firstn noElem elemList) -> q < NUMQUADPTS ->
     det (midpoint_gradient (ObjOfArr.dUdX_at NODESPERELEM E fl k q)
            (ObjOfArr.dUhatdX_at NODESPERELEM E fl k q)) <> 0%R) ->
  (forall k q, In k (firstn noElem elemList) -> q < NUMQUADPTS ->
     let dU := ObjOfArr.dUdX_at NODESPERELEM E fl k q in
     let dUh := ObjOfArr.dUhatdX_at NODESPERELEM E fl k q in
     let kin := ObjOfArr.kinematics_at NODESPERELEM E fl dt k q in
     kin_L kin = mzero
     /\ kin_Dadt kin = mzero
     /\ kin_Rot kin = midentity
     /\ midpoint_gradient dU dUh = end_of_step_gradient dU dUh)
  /\ stress_agree
       (fst (ObjOfArr.ObjectOfArraysKernel NODESPERELEM NUMQUADPTS noElem elemList
               dt E fl (@UpdateStatePoint R _) sa))
       (fst sa).
Proof.
  intros _ H0 _.
  assert (HUh : forall k q, In k (firstn noElem elemList) ->
                  ObjOfArr.dUhatdX_at NODESPERELEM E fl k q = mzero).
  { intros k q Hk. apply OoA_gradient_of_zero. intros a Ha. exact (H0 k a Hk Ha). }
  assert (HK : forall k q, In k (firstn noElem elemList) ->
            kin_L (ObjOfArr.kinematics_at NODESPERELEM E fl dt k q) = mzero
            /\ kin_Dadt (ObjOfArr.kinematics_at NODESPERELEM E fl dt k q) = mzero
            /\ kin_Rot (ObjOfArr.kinematics_at NODESPERELEM E fl dt k q) = midentity).
  { intros k q Hk.
    unfold ObjOfArr.kinematics_at, ObjOfArr.local_kinematics.
    fold (ObjOfArr.dUdX_at NODESPERELEM E fl k q).
    fold (ObjOfArr.dUhatdX_at NODESPERELEM E fl k q).
    rewrite (HUh k q Hk). unfold point_kinematics.
    cbn [kin_L kin_Dadt kin_Rot].
    rewrite velocity_gradient_of_no_increment, HughesWinget_of_zero.
    cbn [fst snd]. auto. }
  split.
  - intros k q Hk Hq dU dUh kin. subst dU dUh kin.
    destruct (HK k q Hk) as (HL & HD & HR).
    repeat split; trivial.
    rewrite (HUh k q Hk). apply gradients_of_no_increment.
  - destruct sa as [s acc]. unfold ObjOfArr.ObjectOfArraysKernel.
    rewrite OoA_monolithic_fst. cbn [fst].
    apply update_elements_at_rest.
    intros k q Hk _. destruct (HK k q Hk) as (_ & HD & HR). now split.
Qed.

Lemma step_without_increment_keeps_the_stress_witness :
  stress_agree
    (fst (ObjOfArr.ObjectOfArraysKernel 1 1 1 [0] 1%R rest_data held_fields
            (@UpdateStatePoint R _) (zero_stress_exact, zero_xyz_exact)))
    (fst (zero_stress_exact, zero_xyz_exact)).
Proof.
  refine (proj2 (@step_without_increment_keeps_the_stress 1 1 1 [0] 1%R rest_data
                   held_fields (zero_stress_exact, zero_xyz_exact) _ _ _)).
  - lra.
  - intros k a _ _. cbn. repeat split; reflexivity.
  - intros k q _ _.
    unfold ObjOfArr.dUdX_at, ObjOfArr.dUhatdX_at, ObjOfArr.CalculateGradient, det.
    cbn [seq fold_left]. munfold.
    cbv [comp3 ObjOfArr.GlobalToLocal ObjOfArr.iu ObjOfArr.iuhat ObjOfArr.idNdX_x
         ObjOfArr.idNdX_y ObjOfArr.idNdX_z held_fields arr_x arr_y arr_z].
    r64. lra.
Defined.

(** * The nodal forces of a run and the order of its elements *)


Section ElementForces.

Context {T : Type} {RT : Real64 T}.
Variable NODESPERELEM : nat.
Variable NUMQUADPTS : nat.
Variable E : element_data T.
Variable fl : ObjOfArr.fields (T := T).
Variable dt : T.

Local Abbreviation cmap := (iconstitutiveMap E).
Local Abbreviation kinO := (ObjOfArr.kinematics_at NODESPERELEM E fl dt).
(** The local force the lambda of [ObjectOfArraysKernel] integrates for
    element [k] from the stress state [s]. *)
Local Abbreviation element_force s k :=
  (snd (ObjOfArr.quadrature_loop NODESPERELEM NUMQUADPTS E fl dt
          (@UpdateStatePoint T RT) k s)).



End ElementForces.




